(** * pachyderm/glob: the glob facade ([glob.go]) over its compiler and engines

    [glob.go] is the public surface of the package: [Compile], [MustCompile],
    [Glob.Match], [Glob.Capture] and [QuoteMeta].  It forwards to the packages
    [syntax] (scanner, parser, feature analyzer), [compiler] (code generator)
    and to two execution engines, Go's [regexp] and the [pcre] binding.

    A Go [string] is a sequence of bytes; a [rune] is a code point, a signed
    32-bit integer in Go and an integer here. *)

From Stdlib Require Import Ascii String.
From Stdlib Require Import List Bool Arith ZArith Lia.
Import ListNotations.

Set Implicit Arguments.
Set Warnings "-register-all".

Definition byte := ascii.
Definition rune := Z.
Definition gostring := list byte.

(** Go string literals, for the examples. *)
Definition lit (s : string) : gostring := list_ascii_of_string s.

(* ================================================================= *)
(** ** Package [unicode/utf8] *)

(** The standard library's reading and writing of code points; the bit
    patterns are written with division and remainder. *)
Module utf8.
Local Open Scope Z_scope.

Definition RuneError : rune := 65533.
Definition MaxRune : rune := 1114111.

Definition b2z (b : byte) : Z := Z.of_N (N_of_ascii b).
Definition z2b (z : Z) : byte := ascii_of_N (Z.to_N z).

(** A continuation byte, [10xxxxxx]. *)
Definition cont (b : byte) : bool := (128 <=? b2z b) && (b2z b <=? 191).

(** The second byte of a sequence has a narrower range after some first
    bytes: no overlong form, no surrogate, nothing above [MaxRune]. *)
Definition second (x : Z) (b : byte) : bool :=
  ((if x =? 224 then 160 else if x =? 240 then 144 else 128) <=? b2z b)
  && (b2z b <=? (if x =? 237 then 159 else if x =? 244 then 143 else 191)).

(** [DecodeRune]: the first code point of [p] and its width in bytes;
    [(RuneError, 0)] for the empty string and [(RuneError, 1)] for a byte
    that starts no well-formed sequence. *)
Definition DecodeRune (p : gostring) : rune * nat :=
  match p with
  | [] => (RuneError, 0%nat)
  | p0 :: rest =>
      let x := b2z p0 in
      if x <? 128 then (x, 1%nat)
      else if (x <? 194) || (244 <? x) then (RuneError, 1%nat)
      else if x <? 224 then
        match rest with
        | b1 :: _ =>
            if cont b1 then ((x mod 32) * 64 + b2z b1 mod 64, 2%nat)
            else (RuneError, 1%nat)
        | _ => (RuneError, 1%nat)
        end
      else if x <? 240 then
        match rest with
        | b1 :: b2 :: _ =>
            if second x b1 && cont b2
            then ((x mod 16) * 4096 + (b2z b1 mod 64) * 64 + b2z b2 mod 64, 3%nat)
            else (RuneError, 1%nat)
        | _ => (RuneError, 1%nat)
        end
      else
        match rest with
        | b1 :: b2 :: b3 :: _ =>
            if second x b1 && cont b2 && cont b3
            then ((x mod 8) * 262144 + (b2z b1 mod 64) * 4096
                  + (b2z b2 mod 64) * 64 + b2z b3 mod 64, 4%nat)
            else (RuneError, 1%nat)
        | _ => (RuneError, 1%nat)
        end
  end.

Definition ValidRune (r : rune) : bool :=
  (0 <=? r) && (r <=? MaxRune) && negb ((55296 <=? r) && (r <=? 57343)).

(** [EncodeRune]: the bytes of [r]; those of [RuneError] when [r] is no
    code point. *)
Definition EncodeRune (r : rune) : gostring :=
  if negb (ValidRune r) then [z2b 239; z2b 191; z2b 189]
  else if r <=? 127 then [z2b r]
  else if r <=? 2047 then [z2b (192 + r / 64); z2b (128 + r mod 64)]
  else if r <=? 65535 then
    [z2b (224 + r / 4096); z2b (128 + (r / 64) mod 64); z2b (128 + r mod 64)]
  else
    [z2b (240 + r / 262144); z2b (128 + (r / 4096) mod 64);
     z2b (128 + (r / 64) mod 64); z2b (128 + r mod 64)].

(** The code point a rune is written as. *)
Definition written (r : rune) : rune := if ValidRune r then r else RuneError.

Fixpoint valid (fuel : nat) (s : gostring) : bool :=
  match s, fuel with
  | [], _ => true
  | _ :: _, O => false
  | _ :: _, S fuel' =>
      let (r, w) := DecodeRune s in
      if (r =? RuneError) && (w =? 1)%nat then false else valid fuel' (skipn w s)
  end.

(** [ValidString]: [s] is made of well-formed sequences only. *)
Definition ValidString (s : gostring) : bool := valid (length s) s.

Fixpoint decode_all (fuel : nat) (s : gostring) : list rune :=
  match s, fuel with
  | [], _ => []
  | _ :: _, O => []
  | _ :: _, S fuel' =>
      let (r, w) := DecodeRune s in r :: decode_all fuel' (skipn w s)
  end.

(** The code points of [s], as [for _, r := range s] yields them. *)
Definition runes (s : gostring) : list rune := decode_all (length s) s.

End utf8.

(* ================================================================= *)
(** ** The execution engines *)

(** Go's [regexp] and the [pcre] binding are libraries outside the
    repository.  Both run a pattern, kept here as the constructs its text is
    made of.  [regexp] reads the text and the subject as UTF-8, one code
    point at a time; [pcre], compiled without its UTF-8 option, reads both
    one byte at a time. *)
Module engine.

Inductive Mode : Type := UTF8 | Bytes.

Inductive Prog : Type :=
| Empty
| Char (c : byte)                                 (* one byte of literal text *)
| AnyChar                                         (* any one character *)
| Class (negated : bool) (ranges : list (byte * byte))  (* a class, as written *)
| NoneOf (sep : list rune)                        (* any character but these *)
| Cat (p q : Prog)
| Alt (p q : Prog)
| Star (p : Prog)
| Plus (p : Prog)
| Opt (p : Prog)
| Cap (p : Prog)                                  (* a capturing group *)
| BeginText                                       (* the start of the subject *)
| EndText.                                        (* the end of the subject *)

(** Number of capturing groups of a program. *)
Fixpoint groups (p : Prog) : nat :=
  match p with
  | Cat p q | Alt p q => groups p + groups q
  | Star p | Plus p | Opt p => groups p
  | Cap p => S (groups p)
  | _ => 0
  end.

(** *** Classes *)

Definition in_range (x : byte) (r : byte * byte) : bool :=
  (nat_of_ascii (fst r) <=? nat_of_ascii x) && (nat_of_ascii x <=? nat_of_ascii (snd r)).

(** Read one byte at a time, a class holds the bytes of its ranges. *)
Definition in_class (negated : bool) (ranges : list (byte * byte)) (x : byte) : bool :=
  xorb negated (existsb (in_range x) ranges).

(** The text of a class body: the bytes of its members, [None] for the dash
    of a range. *)
Definition class_text (ranges : list (byte * byte)) : list (option byte) :=
  flat_map (fun r => if Ascii.eqb (fst r) (snd r) then [Some (fst r)]
                     else [Some (fst r); None; Some (snd r)]) ranges.

Fixpoint leading (t : list (option byte)) : gostring :=
  match t with
  | Some b :: t' => b :: leading t'
  | _ => []
  end.

(** The same text read as UTF-8: code points and dashes; [None] when some
    bytes are no well-formed sequence. *)
Fixpoint class_items (fuel : nat) (t : list (option byte)) : option (list (option rune)) :=
  match t, fuel with
  | [], _ => Some []
  | _ :: _, O => None
  | None :: t', S fuel' => option_map (cons None) (class_items fuel' t')
  | Some _ :: _, S fuel' =>
      let (r, w) := utf8.DecodeRune (leading t) in
      if (r =? utf8.RuneError)%Z && (w =? 1) then None
      else option_map (cons (Some r)) (class_items fuel' (skipn w t))
  end.

Fixpoint class_ranges (l : list (option rune)) : option (list (rune * rune)) :=
  match l with
  | [] => Some []
  | Some a :: None :: Some b :: l' => option_map (cons (a, b)) (class_ranges l')
  | Some a :: l' => option_map (cons (a, a)) (class_ranges l')
  | None :: _ => None
  end.

(** Read as UTF-8, a class holds the code points of these ranges. *)
Definition class_runes (ranges : list (byte * byte)) : option (list (rune * rune)) :=
  match class_items (length (class_text ranges)) (class_text ranges) with
  | Some items => class_ranges items
  | None => None
  end.

Definition in_rune_class (negated : bool) (ranges : list (rune * rune)) (x : rune) : bool :=
  xorb negated (existsb (fun r => (fst r <=? x)%Z && (x <=? snd r)%Z) ranges).

(** *** One character *)

(** Width of the character at the head of a non-empty subject. *)
Definition width (m : Mode) (s : gostring) : nat :=
  match m with
  | UTF8 => snd (utf8.DecodeRune s)
  | Bytes => 1
  end.

(** [step m p s]: the number of bytes the one-character construct [p] takes
    from the head of [s]; [None] when it does not match there, and for the
    other constructs. *)
Definition step (m : Mode) (p : Prog) (s : gostring) : option nat :=
  match p with
  | Char a =>
      match s with
      | x :: _ => if Ascii.eqb x a then Some 1 else None
      | [] => None
      end
  | AnyChar =>
      match s with
      | _ :: _ => Some (width m s)
      | [] => None
      end
  | Class neg ranges =>
      match s, m with
      | [], _ => None
      | x :: _, Bytes => if in_class neg ranges x then Some 1 else None
      | _ :: _, UTF8 =>
          match class_runes ranges with
          | Some rr =>
              if in_rune_class neg rr (fst (utf8.DecodeRune s))
              then Some (width UTF8 s) else None
          | None => None
          end
      end
  | NoneOf sep =>
      match s, m with
      | [], _ => None
      | x :: _, Bytes =>
          if existsb (Ascii.eqb x) (concat (map utf8.EncodeRune sep))
          then None else Some 1
      | _ :: _, UTF8 =>
          if existsb (Z.eqb (fst (utf8.DecodeRune s))) (map utf8.written sep)
          then None else Some (width UTF8 s)
      end
  | _ => None
  end.

(** *** The matcher *)

(** Capture slots: the newest binding of a group comes first. *)
Definition caps := list (nat * (nat * nat)).

Definition cont := nat -> gostring -> caps -> option caps.

Definition orelse {A} (a b : option A) : option A :=
  match a with Some _ => a | None => b end.

(** Greedy repetition of [body]: an iteration has to consume input. *)
Fixpoint star_loop (body : nat -> gostring -> caps -> cont -> option caps)
    (fuel : nat) (i : nat) (s : gostring) (c : caps) (k : cont) : option caps :=
  match fuel with
  | 0 => k i s c
  | S fuel' =>
      orelse (body i s c (fun j s' c' =>
                if i <? j then star_loop body fuel' j s' c' k else None))
             (k i s c)
  end.

(** The backtracking matcher: [run m p n i s c k] matches [p], whose first
    capturing group has number [n], at offset [i] where [s] is what is left
    of the subject, and hands over to [k].  Alternatives are tried left to
    right, repetitions are greedy. *)
Fixpoint run (m : Mode) (p : Prog) (n : nat) (i : nat) (s : gostring) (c : caps)
    (k : cont) : option caps :=
  match p with
  | Empty => k i s c
  | Char _ | AnyChar | Class _ _ | NoneOf _ =>
      match step m p s with
      | Some w => k (i + w) (skipn w s) c
      | None => None
      end
  | Cat p q => run m p n i s c (fun j s' c' => run m q (n + groups p) j s' c' k)
  | Alt p q => orelse (run m p n i s c k) (run m q (n + groups p) i s c k)
  | Star p => star_loop (run m p n) (length s) i s c k
  | Plus p =>
      run m p n i s c (fun j s' c' => star_loop (run m p n) (length s') j s' c' k)
  | Opt p => orelse (run m p n i s c k) (k i s c)
  | Cap p => run m p (S n) i s c (fun j s' c' => k j s' ((n, (i, j)) :: c'))
  | BeginText => if i =? 0 then k i s c else None
  | EndText => match s with [] => k i s c | _ :: _ => None end
  end.

(** Unanchored search: the program is tried at the start of the subject and
    then after each of its characters in turn; the leftmost match wins.
    Group 0 is the whole match. *)
Fixpoint search (fuel : nat) (m : Mode) (p : Prog) (i : nat) (s : gostring)
  : option caps :=
  orelse (run m p 1 i s [] (fun j _ c => Some ((0, (i, j)) :: c)))
         (match fuel, s with
          | S fuel', _ :: _ => search fuel' m p (i + width m s) (skipn (width m s) s)
          | _, _ => None
          end).

Definition execute (m : Mode) (p : Prog) (s : gostring) : option caps :=
  search (length s) m p 0 s.

Fixpoint lookup (g : nat) (c : caps) : option (nat * nat) :=
  match c with
  | [] => None
  | (g', span) :: c' => if g =? g' then Some span else lookup g c'
  end.

Definition slice (s : gostring) (span : nat * nat) : gostring :=
  firstn (snd span - fst span) (skipn (fst span) s).

(** Text of group [g], empty when the group took no part in the match. *)
Definition group_text (s : gostring) (c : caps) (g : nat) : gostring :=
  match lookup g c with
  | Some span => slice s span
  | None => []
  end.

(** *** What a pattern has to be for an engine to take it *)

(** The bytes of the pattern's text: literal bytes and class members as they
    are, the separators as [EncodeRune] writes them, and one ASCII sign for
    each construct, whose own syntax is ASCII in both dialects. *)
Fixpoint text (p : Prog) : gostring :=
  match p with
  | Empty => []
  | Char c => [c]
  | AnyChar => lit "."
  | Class _ ranges =>
      lit "[" ++ map (fun o => match o with Some b => b | None => "-"%char end)
                     (class_text ranges) ++ lit "]"
  | NoneOf sep => lit "[^" ++ concat (map utf8.EncodeRune sep) ++ lit "]"
  | Cat p q => text p ++ text q
  | Alt p q => text p ++ lit "|" ++ text q
  | Star p => text p ++ lit "*"
  | Plus p => text p ++ lit "+"
  | Opt p => text p ++ lit "?"
  | Cap p => lit "(" ++ text p ++ lit ")"
  | BeginText => lit "^"
  | EndText => lit "$"
  end.

(** A class range has to run upwards: both engines reject [c-a]; each on the
    ranges as it reads them. *)
Fixpoint ranges_ok (m : Mode) (p : Prog) : bool :=
  match p with
  | Class _ ranges =>
      match m with
      | Bytes =>
          forallb (fun r => nat_of_ascii (fst r) <=? nat_of_ascii (snd r)) ranges
      | UTF8 =>
          match class_runes ranges with
          | Some rr => forallb (fun r => (fst r <=? snd r)%Z) rr
          | None => false
          end
      end
  | Cat p q | Alt p q => ranges_ok m p && ranges_ok m q
  | Star p | Plus p | Opt p | Cap p => ranges_ok m p
  | _ => true
  end.

(** [regexp] also rejects a pattern whose text is not valid UTF-8. *)
Definition well_formed (m : Mode) (p : Prog) : bool :=
  match m with
  | UTF8 => utf8.ValidString (text p) && ranges_ok UTF8 p
  | Bytes => ranges_ok Bytes p
  end.

(** *** What a pattern matches *)

(** [matches m p i w post]: [p] matches the word [w] at offset [i] of a
    subject in which [post] follows [w]. *)
Inductive matches (m : Mode) : Prog -> nat -> gostring -> gostring -> Prop :=
| m_empty i post : matches m Empty i [] post
| m_step p i w post :
    step m p (w ++ post) = Some (length w) -> matches m p i w post
| m_cat p q i w1 w2 post :
    matches m p i w1 (w2 ++ post) ->
    matches m q (i + length w1) w2 post ->
    matches m (Cat p q) i (w1 ++ w2) post
| m_alt_l p q i w post : matches m p i w post -> matches m (Alt p q) i w post
| m_alt_r p q i w post : matches m q i w post -> matches m (Alt p q) i w post
| m_star_nil p i post : matches m (Star p) i [] post
| m_star_cons p i w1 w2 post :
    matches m p i w1 (w2 ++ post) ->
    matches m (Star p) (i + length w1) w2 post ->
    matches m (Star p) i (w1 ++ w2) post
| m_plus p i w1 w2 post :
    matches m p i w1 (w2 ++ post) ->
    matches m (Star p) (i + length w1) w2 post ->
    matches m (Plus p) i (w1 ++ w2) post
| m_opt_none p i post : matches m (Opt p) i [] post
| m_opt_some p i w post : matches m p i w post -> matches m (Opt p) i w post
| m_capture p i w post : matches m p i w post -> matches m (Cap p) i w post
| m_begin post : matches m BeginText 0 [] post
| m_end i : matches m EndText i [] [].

(** [occurs m p i s]: [p] matches at the head of [s], which starts at offset
    [i] of the subject, or after some of the characters of [s]. *)
Inductive occurs (m : Mode) (p : Prog) : nat -> gostring -> Prop :=
| occurs_here i w post : matches m p i w post -> occurs m p i (w ++ post)
| occurs_later i s :
    s <> [] -> occurs m p (i + width m s) (skipn (width m s) s) ->
    occurs m p i s.

End engine.
(* ================================================================= *)
(** ** Errors and results *)

(** Modelled from the spec: the engine selection tag of section 3, under the
    names [glob.go] uses for it.  The facade switches on it with a [default]
    branch, so a value other than the two named ones is kept. *)
Module ast.

Inductive CompilerToUse : Type :=
| Regexp
| PCRE
| Other (v : nat).

(** Modelled from the spec: the kinds of group of section 3. *)
Inductive GroupKind : Type := OneOf | ZeroOrOne | ZeroOrMore | OneOrMore.

(** Modelled from the spec: the syntax tree of package [ast], which is not
    among the sources; the tagged variant of section 3. *)
Inductive Node : Type :=
| Literal (c : byte)
| AnyOne
| AnySequence (acrossSeparators : bool)
| CharClass (ranges : list (byte * byte)) (negated : bool)
| Group (kind : GroupKind) (alternatives : list Node)
| Sequence (children : list Node).

(** Modelled from the spec: whether a [Group] occurs anywhere in the tree
    (section 4.3); the parser puts a [Sequence] at the root and at the head
    of a group's alternatives only. *)
Fixpoint has_group (t : Node) : bool :=
  match t with
  | Group _ _ => true
  | Sequence children => existsb has_group children
  | _ => false
  end.

End ast.

Inductive error : Type :=
| LexError (offset : nat)
| ParseError (index : nat) (expected : string)
| CodegenError
| EngineError
| PcreError                                   (* fmt.Errorf(pcreErr.String()) *)
| UnrecognizedCompiler (c : ast.CompilerToUse). (* fmt.Errorf("Unrecognized compiler: %v", c) *)

Inductive result (A : Type) : Type :=
| Ok (a : A)
| Err (e : error).
Arguments Ok {A} a.
Arguments Err {A} e.

Definition bind {A B} (r : result A) (f : A -> result B) : result B :=
  match r with
  | Ok a => f a
  | Err e => Err e
  end.

Notation "x <- r ;; k" := (bind r (fun x => k))
  (at level 61, r at next level, right associativity).

Definition is_some {A} (o : option A) : bool :=
  match o with Some _ => true | None => false end.

(* ================================================================= *)
(** ** Package [regexp] (the basic engine) *)

Module regexp.

Record Regexp : Type := { prog : engine.Prog }.

(** [regexp.Compile] rejects a pattern that is not valid UTF-8 and a class
    range that runs downwards. *)
Definition Compile (expr : engine.Prog) : result Regexp :=
  if engine.well_formed engine.UTF8 expr then Ok {| prog := expr |}
  else Err EngineError.

(** [MatchString] reports whether the subject contains any match. *)
Definition MatchString (re : Regexp) (s : gostring) : bool :=
  is_some (engine.execute engine.UTF8 (prog re) s).

(** [FindStringSubmatch] is the text of the leftmost match and of its
    groups; the nil slice when there is no match. *)
Definition FindStringSubmatch (re : Regexp) (s : gostring) : list gostring :=
  match engine.execute engine.UTF8 (prog re) s with
  | None => []
  | Some c => map (engine.group_text s c) (seq 0 (S (engine.groups (prog re))))
  end.

End regexp.

(* ================================================================= *)
(** ** Package [pcre] (the extended engine) *)

Module pcre.

Record Regexp : Type := { prog : engine.Prog }.

(** [pcre.Compile]; with [flags] 0, as the facade calls it, the engine works
    on bytes. *)
Definition Compile (pattern : engine.Prog) (flags : nat) : result Regexp :=
  if engine.well_formed engine.Bytes pattern then Ok {| prog := pattern |}
  else Err PcreError.

(** A [Matcher] keeps the outcome of its last match. *)
Record Matcher : Type := {
  re : Regexp;
  subject : gostring;
  matched : bool;
  ovector : engine.caps
}.

Definition exec (r : Regexp) (s : gostring) : Matcher :=
  match engine.execute engine.Bytes (prog r) s with
  | Some c => {| re := r; subject := s; matched := true; ovector := c |}
  | None => {| re := r; subject := s; matched := false; ovector := [] |}
  end.

Definition MatcherString (r : Regexp) (s : gostring) (flags : nat) : Matcher :=
  exec r s.

Definition Groups (m : Matcher) : nat := engine.groups (prog (re m)).

(** [MatchString] runs the match again on the matcher, which it updates. *)
Definition MatchString (m : Matcher) (s : gostring) (flags : nat) : Matcher * bool :=
  let m' := exec (re m) s in (m', matched m').

Definition GroupString (m : Matcher) (group : nat) : gostring :=
  engine.group_text (subject m) (ovector m) group.

End pcre.

(* ================================================================= *)
(** ** Package [syntax] (scanner, parser, feature analyzer) *)

Module syntax.
Import ast.

(** Modelled from the spec: the tokens of section 3; package [syntax] is not
    among the sources. *)
Inductive Token : Type :=
| TLiteral (c : byte)
| TEscapedLiteral (c : byte)
| TAnyOne
| TAnySequence
| TAnySequenceAll
| TClassOpen
| TClassClose
| TClassNegate
| TClassRangeDash
| TGroupOpen (kind : GroupKind)
| TGroupClose
| TAlternator
| TEndOfInput.

(** Modelled from the spec: where the scanner is (section 4.1): outside a
    class, right after the [[] (where a [!] negates), at the first member of
    a class, or further inside it. *)
Inductive Mode : Type := Outside | ClassStart | ClassFirst | ClassBody.

Definition chr (c : byte) (s : string) : bool :=
  match s with
  | String a EmptyString => Ascii.eqb c a
  | _ => false
  end.

(** Modelled from the spec: the scanner of section 4.1.  [depth] counts the
    open groups and [off] is the offset of the next character. *)
Fixpoint scan (m : Mode) (depth off : nat) (s : gostring) : result (list Token) :=
  match s with
  | [] =>
      match m with
      | Outside => if depth =? 0 then Ok [TEndOfInput] else Err (LexError off)
      | _ => Err (LexError off)
      end
  | c :: rest =>
      match m with
      | Outside =>
          if chr c "\" then
            match rest with
            | [] => Err (LexError off)
            | e :: rest' =>
                ts <- scan Outside depth (off + 2) rest' ;; Ok (TEscapedLiteral e :: ts)
            end
          else if chr c "[" then
            ts <- scan ClassStart depth (off + 1) rest ;; Ok (TClassOpen :: ts)
          else if chr c "(" then
            ts <- scan Outside (S depth) (off + 1) rest ;; Ok (TGroupOpen OneOf :: ts)
          else if chr c ")" then
            match depth with
            | 0 => Err (LexError off)
            | S depth' =>
                ts <- scan Outside depth' (off + 1) rest ;; Ok (TGroupClose :: ts)
            end
          else if (chr c "," || chr c "|") && negb (depth =? 0) then
            ts <- scan Outside depth (off + 1) rest ;; Ok (TAlternator :: ts)
          else
            match rest with
            | d :: rest' =>
                if chr d "(" && (chr c "@" || chr c "*" || chr c "+" || chr c "?") then
                  ts <- scan Outside (S depth) (off + 2) rest' ;;
                  Ok (TGroupOpen (if chr c "@" then OneOf
                                  else if chr c "*" then ZeroOrMore
                                  else if chr c "+" then OneOrMore
                                  else ZeroOrOne) :: ts)
                else if chr c "*" && chr d "*" then
                  ts <- scan Outside depth (off + 2) rest' ;; Ok (TAnySequenceAll :: ts)
                else
                  ts <- scan Outside depth (off + 1) rest ;;
                  Ok ((if chr c "*" then TAnySequence
                       else if chr c "?" then TAnyOne
                       else TLiteral c) :: ts)
            | [] =>
                ts <- scan Outside depth (off + 1) rest ;;
                Ok ((if chr c "*" then TAnySequence
                     else if chr c "?" then TAnyOne
                     else TLiteral c) :: ts)
            end
      | ClassStart | ClassFirst | ClassBody =>
          if chr c "]" then
            match m with
            | ClassBody =>
                ts <- scan Outside depth (off + 1) rest ;; Ok (TClassClose :: ts)
            | _ => Err (LexError off)
            end
          else if chr c "\" then
            match rest with
            | [] => Err (LexError off)
            | e :: rest' =>
                ts <- scan ClassBody depth (off + 2) rest' ;; Ok (TEscapedLiteral e :: ts)
            end
          else if chr c "!" && match m with ClassStart => true | _ => false end then
            ts <- scan ClassFirst depth (off + 1) rest ;; Ok (TClassNegate :: ts)
          else if chr c "-"
                  && match m with ClassBody => true | _ => false end
                  && negb match rest with d :: _ => chr d "]" | [] => false end then
            ts <- scan ClassBody depth (off + 1) rest ;; Ok (TClassRangeDash :: ts)
          else
            ts <- scan ClassBody depth (off + 1) rest ;; Ok (TLiteral c :: ts)
      end
  end.

(** Modelled from the spec: an open group of the parser (section 4.2): its
    kind, the alternatives closed so far and the sequence being read, both
    newest first. *)
Record Frame : Type := {
  f_kind : GroupKind;
  f_alts : list Node;
  f_cur : list Node
}.

(** Modelled from the spec: an open class of the parser (section 4.2): the
    ranges read so far (newest first), a member that may still turn out to
    be the low end of a range, and whether its dash was seen. *)
Record ClassState : Type := {
  c_negated : bool;
  c_ranges : list (byte * byte);
  c_lo : option byte;
  c_dash : bool
}.

Definition flush (st : ClassState) : list (byte * byte) :=
  match c_lo st with
  | Some l => (l, l) :: c_ranges st
  | None => c_ranges st
  end.

Definition member (c : byte) (st : ClassState) : ClassState :=
  match c_dash st, c_lo st with
  | true, Some l =>
      {| c_negated := c_negated st; c_ranges := (l, c) :: c_ranges st;
         c_lo := None; c_dash := false |}
  | _, _ =>
      {| c_negated := c_negated st; c_ranges := flush st;
         c_lo := Some c; c_dash := false |}
  end.

(** Appends a node to the sequence being read. *)
Definition push (n : Node) (stack : list Frame) (root : list Node)
  : list Frame * list Node :=
  match stack with
  | f :: stack' =>
      ({| f_kind := f_kind f; f_alts := f_alts f; f_cur := n :: f_cur f |} :: stack',
       root)
  | [] => ([], n :: root)
  end.

(** Modelled from the spec: the parser of section 4.2, with the explicit
    stack of open groups that section 9 asks for.  [idx] is the index of the
    next token. *)
Fixpoint parse (stack : list Frame) (root : list Node) (cls : option ClassState)
    (idx : nat) (ts : list Token) : result Node :=
  match ts with
  | [] => Err (ParseError idx "end of input")
  | t :: ts' =>
      match cls with
      | Some st =>
          match t with
          | TClassNegate =>
              match c_negated st, flush st with
              | false, [] =>
                  parse stack root
                        (Some {| c_negated := true; c_ranges := []; c_lo := None;
                                 c_dash := false |}) (S idx) ts'
              | _, _ => Err (ParseError idx "class member")
              end
          | TLiteral c | TEscapedLiteral c =>
              parse stack root (Some (member c st)) (S idx) ts'
          | TClassRangeDash =>
              match c_dash st, c_lo st with
              | false, Some l =>
                  parse stack root
                        (Some {| c_negated := c_negated st; c_ranges := c_ranges st;
                                 c_lo := Some l; c_dash := true |}) (S idx) ts'
              | _, _ => Err (ParseError idx "class member")
              end
          | TClassClose =>
              match c_dash st, flush st with
              | false, r :: rs =>
                  let (stack', root') :=
                    push (CharClass (rev (r :: rs)) (c_negated st)) stack root in
                  parse stack' root' None (S idx) ts'
              | true, _ => Err (ParseError idx "range end")
              | false, [] => Err (ParseError idx "non-empty class")
              end
          | _ => Err (ParseError idx "class member")
          end
      | None =>
          match t with
          | TLiteral c | TEscapedLiteral c =>
              let (stack', root') := push (Literal c) stack root in
              parse stack' root' None (S idx) ts'
          | TAnyOne =>
              let (stack', root') := push AnyOne stack root in
              parse stack' root' None (S idx) ts'
          | TAnySequence =>
              let (stack', root') := push (AnySequence false) stack root in
              parse stack' root' None (S idx) ts'
          | TAnySequenceAll =>
              let (stack', root') := push (AnySequence true) stack root in
              parse stack' root' None (S idx) ts'
          | TClassOpen =>
              parse stack root
                    (Some {| c_negated := false; c_ranges := []; c_lo := None;
                             c_dash := false |}) (S idx) ts'
          | TGroupOpen k =>
              parse ({| f_kind := k; f_alts := []; f_cur := [] |} :: stack) root None
                    (S idx) ts'
          | TAlternator =>
              match stack with
              | f :: stack' =>
                  parse ({| f_kind := f_kind f;
                            f_alts := Sequence (rev (f_cur f)) :: f_alts f;
                            f_cur := [] |} :: stack') root None (S idx) ts'
              | [] => Err (ParseError idx "open group")
              end
          | TGroupClose =>
              match stack with
              | f :: stack' =>
                  let (stack'', root') :=
                    push (Group (f_kind f)
                                (rev (Sequence (rev (f_cur f)) :: f_alts f)))
                         stack' root in
                  parse stack'' root' None (S idx) ts'
              | [] => Err (ParseError idx "open group")
              end
          | TEndOfInput =>
              match stack with
              | [] => Ok (Sequence (rev root))
              | _ :: _ => Err (ParseError idx "group close")
              end
          | TClassClose | TClassNegate | TClassRangeDash =>
              Err (ParseError idx "pattern term")
          end
      end
  end.

(** Modelled from the spec: the feature analyzer of section 4.3. *)
Definition analyze (tree : Node) : CompilerToUse :=
  if has_group tree then PCRE else Regexp.

(** Modelled from the spec: [syntax.Parse], the scanner, the parser and the
    analyzer in a row (section 2). *)
Definition Parse (pattern : gostring) : result (Node * CompilerToUse) :=
  ts <- scan Outside 0 0 pattern ;;
  tree <- parse [] [] None 0 ts ;;
  Ok (tree, analyze tree).

(** Modelled from the spec: [syntax.Special], the characters that section 6
    bars from standing for themselves at the head of a term. *)
Definition Special (c : byte) : bool :=
  chr c "*" || chr c "?" || chr c "\" || chr c "[" || chr c "(" || chr c ")"
  || chr c "@" || chr c "+".

End syntax.

(* ================================================================= *)
(** ** Package [compiler] (code generator) *)

Module compiler.
Import ast engine.

(** Modelled from the spec: the class of one character that is none of the
    separators (section 4.4). *)
Definition exclude (sep : list rune) : Prog := NoneOf sep.

(** Modelled from the spec: the quantifier of each kind of group
    (section 4.4). *)
Definition quantify (kind : GroupKind) (p : Prog) : Prog :=
  match kind with
  | OneOf => p
  | ZeroOrOne => Opt p
  | ZeroOrMore => Star p
  | OneOrMore => Plus p
  end.

(** Modelled from the spec: the walk of the code generator of section 4.4;
    package [compiler] is not among the sources.  A class without ranges and
    a group without alternatives break the invariants of section 3 and are
    the generator's error. *)
Fixpoint compile (sep : list rune) (tree : Node) : result Prog :=
  match tree with
  | Literal c => Ok (Char c)
  | AnyOne => Ok (exclude sep)
  | AnySequence false => Ok (Star (exclude sep))
  | AnySequence true => Ok (Star AnyChar)
  | CharClass [] _ => Err CodegenError
  | CharClass ranges negated => Ok (Class negated ranges)
  | Group kind alternatives =>
      body <- (fix alt (l : list Node) : result Prog :=
                 match l with
                 | [] => Err CodegenError
                 | [a] => compile sep a
                 | a :: l' => p <- compile sep a ;; q <- alt l' ;; Ok (Alt p q)
                 end) alternatives ;;
      Ok (quantify kind (Cap body))
  | Sequence children =>
      (fix cat (l : list Node) : result Prog :=
         match l with
         | [] => Ok Empty
         | a :: l' => p <- compile sep a ;; q <- cat l' ;; Ok (Cat p q)
         end) children
  end.

(** Modelled from the spec: [compiler.Compile], the pattern that the walk of
    section 4.4 emits for the tree, and nothing else. *)
Definition Compile (tree : Node) (sep : list rune) : result Prog :=
  compile sep tree.

End compiler.

(* ================================================================= *)
(** ** [glob.go] *)

(** What a call leaves on standard output: the operands of each
    [fmt.Println], in order. *)
Inductive value : Type :=
| VString (s : gostring)
| VRegex (p : engine.Prog)
| VCompiler (c : ast.CompilerToUse).

Definition stdout := list (list value).

Inductive panic : Type :=
| PanicError (e : error)
| NilDereference
| IndexOutOfRange.

Inductive outcome (A : Type) : Type :=
| Return (a : A)
| Panic (v : panic).
Arguments Return {A} a.
Arguments Panic {A} v.

(** [type Glob struct { r *regexp.Regexp; p *pcre.Regexp }] *)
Record Glob : Type := {
  r : option regexp.Regexp;
  p : option pcre.Regexp
}.

(** [Compile]: what it prints, and the pair it returns. *)
Definition Compile (pattern : gostring) (separators : list rune)
  : stdout * (option Glob * option error) :=
  match syntax.Parse pattern with
  | Err err => ([], (None, Some err))
  | Ok (tree, compilerToUse) =>
      match compiler.Compile tree separators with
      | Err err => ([], (None, Some err))
      | Ok regex =>
          let out := [ [VString (lit "pattern:"); VString pattern];
                       [VString (lit "regexp:"); VRegex regex; VCompiler compilerToUse] ] in
          match compilerToUse with
          | ast.Regexp =>
              match regexp.Compile regex with
              | Err err => (out, (None, Some err))
              | Ok r => (out, (Some {| r := Some r; p := None |}, None))
              end
          | ast.PCRE =>
              match pcre.Compile regex 0 with
              | Err pcreErr => (out, (None, Some PcreError))
              | Ok p => (out, (Some {| r := None; p := Some p |}, None))
              end
          | _ => (out, (None, Some (UnrecognizedCompiler compilerToUse)))
          end
      end
  end.

(** [MustCompile] is [Compile], with a panic for the error. *)
Definition MustCompile (pattern : gostring) (separators : list rune)
  : stdout * outcome (option Glob) :=
  let '(out, (g, err)) := Compile pattern separators in
  match err with
  | Some e => (out, Panic (PanicError e))
  | None => (out, Return g)
  end.

(** [func (g *Glob) Match(fixture string) bool]; reading a field of a nil
    [g], or calling through a nil [g.p], panics. *)
Definition Match (g : option Glob) (fixture : gostring) : outcome bool :=
  match g with
  | None => Panic NilDereference
  | Some g =>
      match r g with
      | Some re => Return (regexp.MatchString re fixture)
      | None =>
          match p g with
          | None => Panic NilDereference
          | Some pr =>
              let m := pcre.MatcherString pr fixture 0 in
              Return (snd (pcre.MatchString m fixture 0))
          end
      end
  end.

(** [func (g *Glob) Capture(fixture string) []string]; a nil slice and an
    empty one are both [[]]. *)
Definition Capture (g : option Glob) (fixture : gostring) : outcome (list gostring) :=
  match g with
  | None => Panic NilDereference
  | Some g =>
      match r g with
      | Some re => Return (regexp.FindStringSubmatch re fixture)
      | None =>
          match p g with
          | None => Panic NilDereference
          | Some pr =>
              let m := pcre.MatcherString pr fixture 0 in
              let num := pcre.Groups m in
              let groups : list gostring := [] in
              let (m, ok) := pcre.MatchString m fixture 0 in
              if ok then
                Return (fold_left (fun groups i => groups ++ [pcre.GroupString m i])
                                  (seq 0 (S num)) groups)
              else Return groups
          end
      end
  end.

(** [b[j] = v]; [None] is the panic of an index out of range. *)
Fixpoint store (b : list byte) (j : nat) (v : byte) : option (list byte) :=
  match b, j with
  | [], _ => None
  | _ :: b', 0 => Some (v :: b')
  | x :: b', S j' =>
      match store b' j' v with
      | Some b'' => Some (x :: b'')
      | None => None
      end
  end.

(** The byte loop of [QuoteMeta] over what is left of [s]. *)
Fixpoint quote_loop (s : gostring) (b : list byte) (j : nat)
  : option (list byte * nat) :=
  match s with
  | [] => Some (b, j)
  | c :: s' =>
      match (if syntax.Special c
             then match store b j "\"%char with
                  | Some b' => Some (b', S j)
                  | None => None
                  end
             else Some (b, j)) with
      | None => None
      | Some (b1, j1) =>
          match store b1 j1 c with
          | Some b2 => quote_loop s' b2 (S j1)
          | None => None
          end
      end
  end.

(** [func QuoteMeta(s string) string] *)
Definition QuoteMeta (s : gostring) : outcome gostring :=
  match quote_loop s (repeat zero (2 * length s)) 0 with
  | Some (b, j) => Return (firstn j b)
  | None => Panic IndexOutOfRange
  end.

(** What [QuoteMeta] is for: a backslash before every special byte. *)
Fixpoint quoted (s : gostring) : gostring :=
  match s with
  | [] => []
  | c :: s' =>
      if syntax.Special c then "\"%char :: c :: quoted s' else c :: quoted s'
  end.

(** The pattern a successful [Compile] hands to its engine. *)
Definition program (g : Glob) : option engine.Prog :=
  match r g, p g with
  | Some re, _ => Some (regexp.prog re)
  | None, Some pr => Some (pcre.prog pr)
  | None, None => None
  end.

(** The engine a [Glob] is bound to. *)
Definition engine_of (g : Glob) : option ast.CompilerToUse :=
  match r g, p g with
  | Some _, _ => Some ast.Regexp
  | None, Some _ => Some ast.PCRE
  | None, None => None
  end.

(** How the engine a [Glob] is bound to reads the subject. *)
Definition mode_of (g : Glob) : engine.Mode :=
  match r g with
  | Some _ => engine.UTF8
  | None => engine.Bytes
  end.

(** The pattern matches the whole of [s]. *)
Definition whole_match (m : engine.Mode) (prog : engine.Prog) (s : gostring) : Prop :=
  engine.matches m prog 0 s [].

(** The pattern matches the part [w] of the subject [pre ++ w ++ post]. *)
Definition matches_within (m : engine.Mode) (prog : engine.Prog)
    (pre w post : gostring) : Prop :=
  engine.matches m prog (length pre) w post.

(** The pattern matches somewhere in [s]: at its start or after some of its
    characters. *)
Definition found_in (m : engine.Mode) (prog : engine.Prog) (s : gostring) : Prop :=
  engine.occurs m prog 0 s.

(** The token the scanner makes of a quoted byte. *)
Definition token_of (c : byte) : syntax.Token :=
  if syntax.Special c then syntax.TEscapedLiteral c else syntax.TLiteral c.

(** The program of a pattern that spells out [s]. *)
Fixpoint word (s : gostring) : engine.Prog :=
  match s with
  | [] => engine.Empty
  | c :: s' => engine.Cat (engine.Char c) (word s')
  end.

(** Reading a quoted text back: a backslash is dropped and the byte after it
    kept as it is. *)
Fixpoint unquote (q : gostring) : gostring :=
  match q with
  | [] => []
  | c :: rest =>
      if Ascii.eqb c "\"%char then
        match rest with
        | [] => []
        | d :: rest' => d :: unquote rest'
        end
      else c :: unquote rest
  end.

(** No code point of [s] is one of the separators. *)
Definition separator_free (sep : list rune) (s : gostring) : bool :=
  forallb (fun x => negb (existsb (Z.eqb x) sep)) (utf8.runes s).

(** A tree of literals, wildcards and classes only. *)
Fixpoint basic_only (t : ast.Node) : bool :=
  match t with
  | ast.Group _ _ => false
  | ast.Sequence children => forallb basic_only children
  | _ => true
  end.

(** Compile and match, or capture, in one go. *)
Definition run_match (pattern : string) (sep : list rune) (fixture : string)
  : outcome bool :=
  Match (fst (snd (Compile (lit pattern) sep))) (lit fixture).

Definition run_capture (pattern : string) (sep : list rune) (fixture : string)
  : outcome (list gostring) :=
  Capture (fst (snd (Compile (lit pattern) sep))) (lit fixture).

(* ================================================================= *)
(** ** The matcher without its capture slots *)

(** Whether a match is found does not depend on the slots: [runb] is [run]
    with the slots left out, and is what the proofs reason about. *)
Module decide.
Import engine.

Definition contb := nat -> gostring -> bool.

Fixpoint star_loopb (body : nat -> gostring -> contb -> bool)
    (fuel : nat) (i : nat) (s : gostring) (k : contb) : bool :=
  match fuel with
  | 0 => k i s
  | S fuel' =>
      body i s (fun j s' => if i <? j then star_loopb body fuel' j s' k else false)
      || k i s
  end.

Fixpoint runb (m : Mode) (p : Prog) (i : nat) (s : gostring) (k : contb) : bool :=
  match p with
  | Empty => k i s
  | Char _ | AnyChar | Class _ _ | NoneOf _ =>
      match step m p s with
      | Some w => k (i + w) (skipn w s)
      | None => false
      end
  | Cat p q => runb m p i s (fun j s' => runb m q j s' k)
  | Alt p q => runb m p i s k || runb m q i s k
  | Star p => star_loopb (runb m p) (length s) i s k
  | Plus p => runb m p i s (fun j s' => star_loopb (runb m p) (length s') j s' k)
  | Opt p => runb m p i s k || k i s
  | Cap p => runb m p i s k
  | BeginText => if i =? 0 then k i s else false
  | EndText => match s with [] => k i s | _ :: _ => false end
  end.

Fixpoint searchb (fuel : nat) (m : Mode) (p : Prog) (i : nat) (s : gostring) : bool :=
  runb m p i s (fun _ _ => true)
  || match fuel, s with
     | S fuel', _ :: _ => searchb fuel' m p (i + width m s) (skipn (width m s) s)
     | _, _ => false
     end.

(** A continuation and its slot-free counterpart agree on success. *)
Definition agree (k : cont) (kb : contb) : Prop :=
  forall j s c, is_some (k j s c) = kb j s.

(** What [runb m p i s k] decides: some prefix of [s] is matched by [p] and
    [k] accepts what follows. *)
Definition accepts (m : Mode) (p : Prog) (i : nat) (s : gostring) (k : contb) : Prop :=
  exists w post, s = w ++ post /\ matches m p i w post /\ k (i + length w) post = true.

End decide.
(* ================================================================= *)
(** ** The engines find exactly the matches of the program *)

Module engine_facts.
Import engine decide.

Lemma is_some_orelse {A} (a b : option A) :
  is_some (orelse a b) = is_some a || is_some b.
Proof. destruct a; reflexivity. Qed.

Lemma star_loop_agree body bodyb
    (Hbody : forall i s c k kb, agree k kb -> is_some (body i s c k) = bodyb i s kb) :
  forall fuel i s c k kb, agree k kb ->
    is_some (star_loop body fuel i s c k) = star_loopb bodyb fuel i s kb.
Proof.
  induction fuel as [|fuel IH]; intros i s c k kb Hk; simpl.
  - apply Hk.
  - rewrite is_some_orelse, Hk. f_equal.
    apply Hbody. intros j s' c'.
    destruct (i <? j); [now apply IH | reflexivity].
Qed.

Lemma run_agree m p :
  forall n i s c k kb, agree k kb -> is_some (run m p n i s c k) = runb m p i s kb.
Proof.
  induction p as [ |a| |neg rs|sep|p1 IHp1 p2 IHp2|p1 IHp1 p2 IHp2
                  |p IHp|p IHp|p IHp|p IHp| | ];
    intros n i s c k kb Hk; cbn [run runb];
    try (destruct (step m _ s); [apply Hk | reflexivity]).
  - apply Hk.
  - apply IHp1. intros j s' c'. now apply IHp2.
  - rewrite is_some_orelse. f_equal; [now apply IHp1 | now apply IHp2].
  - apply star_loop_agree; [intros; now apply IHp | assumption].
  - apply IHp. intros j s' c'.
    apply star_loop_agree; [intros; now apply IHp | assumption].
  - rewrite is_some_orelse. f_equal; [now apply IHp | apply Hk].
  - apply IHp. intros j s' c'. apply Hk.
  - destruct (i =? 0); [apply Hk | reflexivity].
  - destruct s; [apply Hk | reflexivity].
Qed.

Lemma search_searchb m p : forall fuel s i,
  is_some (search fuel m p i s) = searchb fuel m p i s.
Proof.
  induction fuel as [|fuel IH]; intros s i; simpl; rewrite is_some_orelse; f_equal;
    try (now apply run_agree).
  destruct s; [reflexivity | apply IH].
Qed.

(** *** The width of a character *)

Lemma DecodeRune_width s :
  s <> [] -> 1 <= snd (utf8.DecodeRune s) <= length s.
Proof.
  destruct s as [|p0 rest]; [congruence|]. intros _. unfold utf8.DecodeRune.
  repeat match goal with
         | |- context [if ?c then _ else _] => destruct c
         | |- context [match ?l with [] => _ | _ :: _ => _ end] => destruct l
         end; simpl; lia.
Qed.

Lemma width_bounds m s : s <> [] -> 1 <= width m s <= length s.
Proof.
  intros H. destruct m; simpl.
  - now apply DecodeRune_width.
  - destruct s; [congruence | simpl; lia].
Qed.

Lemma step_width m p s w : step m p s = Some w -> 1 <= w <= length s.
Proof.
  destruct s as [|x s]; [destruct p, m; discriminate|].
  assert (Hw : forall m', 1 <= width m' (x :: s) <= length (x :: s))
    by (intros; now apply width_bounds).
  pose proof (Hw UTF8) as HU. simpl width in HU.
  destruct p; try discriminate; cbn [step]; intros H.
  - destruct (Ascii.eqb x c); [|discriminate]. injection H as <-. simpl. lia.
  - injection H as <-. apply Hw.
  - destruct m.
    + destruct (class_runes ranges); [|discriminate].
      destruct (in_rune_class _ _ _); [|discriminate]. injection H as <-. exact HU.
    + destruct (in_class _ _ _); [|discriminate]. injection H as <-. simpl. lia.
  - destruct m.
    + destruct (existsb _ _); [discriminate|]. injection H as <-. exact HU.
    + destruct (existsb _ _); [discriminate|]. injection H as <-. simpl. lia.
Qed.

(** A matched character splits the subject into itself and the rest. *)
Lemma step_split m p s w :
  step m p s = Some w ->
  s = firstn w s ++ skipn w s /\ length (firstn w s) = w.
Proof.
  intros H. apply step_width in H. split; [now rewrite firstn_skipn|].
  apply firstn_length_le. lia.
Qed.

(** The empty word is matched and the continuation takes over on the spot. *)
Ltac stay :=
  match goal with
  | |- accepts _ _ _ ?s _ =>
      exists [], s; rewrite Nat.add_0_r; repeat split;
        [first [apply m_empty | apply m_star_nil | apply m_opt_none] | assumption]
  end.

Lemma star_loopb_sound m p
    (Hbody : forall i s k, runb m p i s k = true -> accepts m p i s k) :
  forall fuel i s k,
    star_loopb (runb m p) fuel i s k = true -> accepts m (Star p) i s k.
Proof.
  induction fuel as [|fuel IH]; intros i s k H; simpl in H.
  - stay.
  - apply orb_true_iff in H. destruct H as [H|H].
    + apply Hbody in H. destruct H as (w1 & rest & -> & Hm & Hk).
      destruct (i <? i + length w1); [|discriminate].
      apply IH in Hk. destruct Hk as (w2 & post & -> & Hs & Hk).
      exists (w1 ++ w2), post. rewrite length_app, Nat.add_assoc, app_assoc.
      repeat split; [|assumption]. now apply m_star_cons.
    + stay.
Qed.

Lemma runb_sound m p : forall i s k, runb m p i s k = true -> accepts m p i s k.
Proof.
  induction p as [ |a| |neg rs|sep|p1 IHp1 p2 IHp2|p1 IHp1 p2 IHp2
                  |p IHp|p IHp|p IHp|p IHp| | ];
    intros i s k H; cbn [runb] in H;
    try (destruct (step m _ s) as [w|] eqn:E; [|discriminate];
         destruct (step_split _ _ _ E) as [Hs Hl];
         exists (firstn w s), (skipn w s); rewrite Hl;
         repeat split; [assumption | | assumption];
         apply m_step; now rewrite <- Hs, Hl).
  - stay.
  - apply IHp1 in H. destruct H as (w1 & rest & -> & Hm1 & H).
    apply IHp2 in H. destruct H as (w2 & post & -> & Hm2 & H).
    exists (w1 ++ w2), post. rewrite length_app, Nat.add_assoc, app_assoc.
    repeat split; [|assumption]. now apply m_cat.
  - apply orb_true_iff in H. destruct H as [H|H].
    + apply IHp1 in H. destruct H as (w & post & -> & Hm & H).
      exists w, post. repeat split; [now apply m_alt_l | assumption].
    + apply IHp2 in H. destruct H as (w & post & -> & Hm & H).
      exists w, post. repeat split; [now apply m_alt_r | assumption].
  - now apply star_loopb_sound in H.
  - apply IHp in H. destruct H as (w1 & rest & -> & Hm1 & H).
    apply star_loopb_sound in H; [|assumption].
    destruct H as (w2 & post & -> & Hm2 & H).
    exists (w1 ++ w2), post. rewrite length_app, Nat.add_assoc, app_assoc.
    repeat split; [|assumption]. now apply m_plus.
  - apply orb_true_iff in H. destruct H as [H|H].
    + apply IHp in H. destruct H as (w & post & -> & Hm & H).
      exists w, post. repeat split; [now apply m_opt_some | assumption].
    + stay.
  - apply IHp in H. destruct H as (w & post & -> & Hm & H).
    exists w, post. repeat split; [now apply m_capture | assumption].
  - destruct (Nat.eqb_spec i 0) as [->|]; [|discriminate].
    exists [], s. repeat split; [apply m_begin | assumption].
  - destruct s; [|discriminate].
    exists [], []. rewrite Nat.add_0_r. repeat split; [apply m_end | assumption].
Qed.

Lemma skipn_length_app {A} (w post : list A) : skipn (length w) (w ++ post) = post.
Proof. induction w; simpl; auto. Qed.

(** Iterations that consume nothing can be left out, so the loop, which
    insists on progress, still finds every match of a repetition. *)
Lemma star_loopb_complete m p
    (Hbody : forall i w post k,
        matches m p i w post -> k (i + length w) post = true ->
        runb m p i (w ++ post) k = true) :
  forall sp i w post, matches m sp i w post -> sp = Star p ->
  forall fuel k, length w <= fuel -> k (i + length w) post = true ->
    star_loopb (runb m p) fuel i (w ++ post) k = true.
Proof.
  induction 1 as [ |q i w post Hst| | | | p' i post | p' i w1 w2 post Hm1 _ Hm2 IH
                  | | | | | | ];
    intros E; try discriminate E.
  - subst q. discriminate Hst.
  - injection E as ->. intros fuel k Hfuel Hk.
    simpl in Hk. rewrite Nat.add_0_r in Hk.
    destruct fuel; simpl; [assumption | rewrite Hk; apply orb_true_r].
  - injection E as ->. intros fuel k Hfuel Hk.
    destruct w1 as [|x w1].
    + simpl in *. rewrite Nat.add_0_r in IH. now apply IH.
    + rewrite length_app in Hfuel, Hk. simpl in Hfuel.
      destruct fuel as [|fuel]; [lia|]. simpl star_loopb.
      apply orb_true_iff. left. rewrite <- app_assoc.
      apply (Hbody i (x :: w1) (w2 ++ post)); [assumption|].
      replace (i <? i + length (x :: w1)) with true
        by (symmetry; apply Nat.ltb_lt; simpl; lia).
      apply IH; [reflexivity | lia | now rewrite <- Nat.add_assoc].
Qed.

Lemma runb_complete m p : forall i w post k,
  matches m p i w post -> k (i + length w) post = true ->
  runb m p i (w ++ post) k = true.
Proof.
  induction p as [ |a| |neg rs|sep|p1 IHp1 p2 IHp2|p1 IHp1 p2 IHp2
                  |p IHp|p IHp|p IHp|p IHp| | ];
    intros i w post k Hm Hk; inversion Hm; subst; cbn [runb];
    try match goal with
        | H : step _ _ _ = Some _ |- _ =>
            first [ discriminate H
                  | rewrite H, skipn_length_app; exact Hk ]
        end;
    simpl in Hk; rewrite ?Nat.add_0_r in Hk; try assumption.
  - rewrite <- app_assoc. apply IHp1; [assumption|].
    apply IHp2; [assumption|]. now rewrite length_app, Nat.add_assoc in Hk.
  - apply orb_true_iff. left. now apply IHp1.
  - apply orb_true_iff. right. now apply IHp2.
  - simpl. destruct (length post); simpl; [assumption | rewrite Hk; apply orb_true_r].
  - eapply star_loopb_complete with (sp := Star p) (w := w1 ++ w2);
      [exact IHp | exact Hm | reflexivity | rewrite !length_app; lia | assumption].
  - rewrite <- app_assoc. apply IHp; [assumption|].
    eapply star_loopb_complete with (sp := Star p);
      [exact IHp | eassumption | reflexivity | rewrite length_app; lia |].
    now rewrite length_app, Nat.add_assoc in Hk.
  - simpl. rewrite Hk. apply orb_true_r.
  - apply orb_true_iff. left. now apply IHp.
  - now apply IHp.
Qed.

Theorem runb_spec m p i s k : runb m p i s k = true <-> accepts m p i s k.
Proof.
  split; [apply runb_sound|].
  intros (w & post & -> & Hm & Hk). now apply runb_complete.
Qed.

Lemma occurs_iff m p i s :
  occurs m p i s <->
  (exists w post, s = w ++ post /\ matches m p i w post) \/
  (s <> [] /\ occurs m p (i + width m s) (skipn (width m s) s)).
Proof.
  split.
  - intros H. inversion H; subst; [left; eauto | right; auto].
  - intros [(w & post & -> & H)|[Hs H]];
      [now apply occurs_here | now apply occurs_later].
Qed.

Lemma runb_anywhere m p i s :
  runb m p i s (fun _ _ => true) = true <->
  exists w post, s = w ++ post /\ matches m p i w post.
Proof.
  rewrite runb_spec. unfold accepts. split.
  - intros (w & post & E & H & _). eauto.
  - intros (w & post & E & H). eauto.
Qed.

(** The search finds a match exactly when the program matches at the start
    of the subject or after some of its characters. *)
Theorem searchb_spec m p : forall fuel s i,
  length s <= fuel -> (searchb fuel m p i s = true <-> occurs m p i s).
Proof.
  induction fuel as [|fuel IH]; intros s i Hlen; simpl;
    rewrite orb_true_iff, runb_anywhere, occurs_iff.
  - destruct s; [|simpl in Hlen; lia].
    split; (intros [H|H]; [now left | right]); [discriminate | tauto].
  - destruct s as [|x s].
    + split; (intros [H|H]; [now left | right]); [discriminate | tauto].
    + assert (Hne : x :: s <> []) by discriminate.
      pose proof (width_bounds m Hne) as Hw.
      rewrite IH by (rewrite length_skipn; cbn [length] in *; lia).
      split; (intros [H|H]; [now left | right]); tauto.
Qed.

Theorem execute_spec m p s :
  is_some (execute m p s) = true <-> occurs m p 0 s.
Proof. unfold execute. rewrite search_searchb. now apply searchb_spec. Qed.

(** A match somewhere in the subject is a match of a part of it. *)
Lemma occurs_part m p : forall i s,
  occurs m p i s ->
  exists pre w post, s = pre ++ w ++ post /\ matches m p (i + length pre) w post.
Proof.
  induction 1 as [i w post H|i s Hne _ (pre & w & post & E & H)].
  - exists [], w, post. simpl. now rewrite Nat.add_0_r.
  - pose proof (width_bounds m Hne) as Hw.
    exists (firstn (width m s) s ++ pre), w, post. split.
    + rewrite <- app_assoc, <- E. now rewrite firstn_skipn.
    + rewrite length_app, firstn_length_le by lia. now rewrite Nat.add_assoc.
Qed.

(** Read one byte at a time, every part of the subject is tried. *)
Lemma part_occurs_bytes p : forall pre i w post,
  matches Bytes p (i + length pre) w post -> occurs Bytes p i (pre ++ w ++ post).
Proof.
  induction pre as [|x pre IH]; intros i w post H; simpl in *.
  - rewrite Nat.add_0_r in H. now apply occurs_here.
  - apply occurs_later; [discriminate|]. simpl. apply IH.
    now replace (i + 1 + length pre) with (i + S (length pre)) by lia.
Qed.

(** The whole subject is among what is tried. *)
Lemma whole_occurs m p s : matches m p 0 s [] -> occurs m p 0 s.
Proof. intros H. rewrite <- (app_nil_r s). now apply occurs_here. Qed.

End engine_facts.

(* ================================================================= *)
(** ** The facade *)

Module facade.
Import engine.

(** What a successful [Compile] went through. *)
Lemma Compile_ok pattern sep out g :
  Compile pattern sep = (out, (Some g, None)) ->
  exists tree kind body,
    syntax.Parse pattern = Ok (tree, kind) /\
    compiler.compile sep tree = Ok body /\
    program g = Some body /\
    engine_of g = Some kind /\
    (kind = ast.Regexp \/ kind = ast.PCRE) /\
    well_formed (mode_of g) body = true.
Proof.
  unfold Compile, compiler.Compile. intros H.
  destruct (syntax.Parse pattern) as [[tree kind]|e]; [|discriminate].
  destruct (compiler.compile sep tree) as [body|e] eqn:Eb; [|discriminate].
  exists tree, kind, body. split; [reflexivity|]. split; [exact Eb|].
  destruct kind; try discriminate.
  - unfold regexp.Compile in H.
    destruct (well_formed UTF8 body) eqn:W; [|discriminate].
    injection H as _ <-. simpl. auto.
  - unfold pcre.Compile in H.
    destruct (well_formed Bytes body) eqn:W; [|discriminate].
    injection H as _ <-. simpl. auto.
Qed.

(** [Compile] returns either a [Glob] and no error, or an error and no
    [Glob]. *)
Lemma Compile_cases pattern sep :
  (exists g, snd (Compile pattern sep) = (Some g, None)) \/
  (exists e, snd (Compile pattern sep) = (None, Some e)).
Proof.
  unfold Compile.
  destruct (syntax.Parse pattern) as [[tree kind]|e]; [|right; now exists e].
  destruct (compiler.Compile tree sep) as [regex|e]; [|right; now exists e].
  destruct kind.
  - destruct (regexp.Compile regex) as [re|e]; [left|right]; eexists; reflexivity.
  - destruct (pcre.Compile regex 0) as [re|e]; [left|right]; eexists; reflexivity.
  - right. eexists; reflexivity.
Qed.

Lemma fold_append {A B} (f : A -> B) l : forall acc,
  fold_left (fun groups i => groups ++ [f i]) l acc = acc ++ map f l.
Proof.
  induction l as [|x l IH]; intros acc; simpl.
  - now rewrite app_nil_r.
  - rewrite IH, <- app_assoc. reflexivity.
Qed.

(** On either engine [Match] is the search for the program. *)
Lemma Match_execute g prog s :
  program g = Some prog ->
  Match (Some g) s = Return (is_some (execute (mode_of g) prog s)).
Proof.
  unfold program, Match, mode_of. destruct (r g) as [re|].
  - intros [= <-]. reflexivity.
  - destruct (p g) as [pr|]; [|discriminate]. intros [= <-].
    unfold pcre.MatchString, pcre.MatcherString, pcre.exec.
    destruct (execute Bytes (pcre.prog pr) s) eqn:E; simpl; now rewrite E.
Qed.

(** On either engine [Capture] lists the texts of group 0 and of the
    program's groups, in the order of their numbers. *)
Lemma Capture_execute g prog s :
  program g = Some prog ->
  Capture (Some g) s =
  Return match execute (mode_of g) prog s with
         | Some c => map (group_text s c) (seq 0 (S (groups prog)))
         | None => []
         end.
Proof.
  unfold program, Capture, mode_of. destruct (r g) as [re|].
  - intros [= <-]. reflexivity.
  - destruct (p g) as [pr|]; [|discriminate]. intros [= <-].
    unfold pcre.MatchString, pcre.MatcherString, pcre.Groups, pcre.exec.
    destruct (execute Bytes (pcre.prog pr) s) as [c|] eqn:E; simpl; rewrite E; simpl;
      [|reflexivity].
    f_equal. apply (fold_append (fun i => group_text s c i) _ [group_text s c 0]).
Qed.

(** A boolean result of [Match] is settled by when it is true. *)
Lemma Match_by_iff g prog s (b : bool) :
  program g = Some prog ->
  (occurs (mode_of g) prog 0 s <-> b = true) ->
  Match (Some g) s = Return b.
Proof.
  intros Hp Hb. rewrite (Match_execute g s Hp). f_equal.
  pose proof (engine_facts.execute_spec (mode_of g) prog s) as He.
  destruct (is_some _), b; try reflexivity.
  - symmetry. apply Hb, He. reflexivity.
  - apply He, Hb. reflexivity.
Qed.

End facade.

(* ================================================================= *)
(** ** Matching *)




(** C6.  On a [Glob] that [Compile] returned without an error, [Match] and
    [Capture] return a result for every input: neither reaches the panic of
    a nil handle. *)
Theorem Match_Capture_total pattern sep out g s :
  Compile pattern sep = (out, (g, None)) ->
  (exists b, Match g s = Return b) /\ (exists l, Capture g s = Return l).
Proof.
  intros H.
  destruct (facade.Compile_cases pattern sep) as [[g' E]|[e E]];
    rewrite H in E; simpl in E; [|discriminate].
  injection E as ->.
  destruct (facade.Compile_ok _ _ H) as (_ & _ & body & _ & _ & Hp & _).
  rewrite (facade.Match_execute g' s Hp), (facade.Capture_execute g' s Hp).
  split; eexists; reflexivity.
Qed.

Lemma Match_Capture_total_witness :
  (exists b, Match (fst (snd (Compile (lit "@(a|b)c") []))) (lit "bc") = Return b) /\
  (exists l, Capture (fst (snd (Compile (lit "@(a|b)c") []))) (lit "bc") = Return l).
Proof.
  apply (@Match_Capture_total (lit "@(a|b)c") [] (fst (Compile (lit "@(a|b)c") []))).
  reflexivity.
Defined.

(** C10.  On a compiled [Glob], [Capture] returns a non-empty slice exactly
    when [Match] returns true, and an empty one when [Match] returns
    false. *)
Theorem Capture_nonempty_iff_Match pattern sep out g s :
  Compile pattern sep = (out, (Some g, None)) ->
  exists b l,
    Match (Some g) s = Return b /\ Capture (Some g) s = Return l /\
    (l <> [] <-> b = true) /\ (b = false -> l = []).
Proof.
  intros H.
  destruct (facade.Compile_ok _ _ H) as (_ & _ & body & _ & _ & Hp & _).
  rewrite (facade.Match_execute g s Hp), (facade.Capture_execute g s Hp).
  do 2 eexists. split; [reflexivity|]. split; [reflexivity|].
  destruct (engine.execute _ _ s); simpl; repeat split; congruence.
Qed.

Lemma Capture_nonempty_iff_Match_witness :
  exists b l,
    Match (fst (snd (Compile (lit "@(a|b)c") []))) (lit "bc") = Return b /\
    Capture (fst (snd (Compile (lit "@(a|b)c") []))) (lit "bc") = Return l /\
    (l <> [] <-> b = true) /\ (b = false -> l = []).
Proof.
  apply (@Capture_nonempty_iff_Match (lit "@(a|b)c") []
           (fst (Compile (lit "@(a|b)c") []))).
  reflexivity.
Defined.

(* ================================================================= *)
(** ** Compilation *)

(** C9.  [MustCompile] prints what [Compile] prints; it returns the [Glob]
    of [Compile] when [Compile] has no error, and that [Glob] is not nil; it
    panics with the error of [Compile] when there is one. *)
Theorem MustCompile_spec pattern sep :
  (forall out g, Compile pattern sep = (out, (g, None)) ->
     MustCompile pattern sep = (out, Return g) /\ g <> None) /\
  (forall out g e, Compile pattern sep = (out, (g, Some e)) ->
     MustCompile pattern sep = (out, Panic (PanicError e))) /\
  (forall out g, MustCompile pattern sep = (out, Return g) ->
     g <> None /\ Compile pattern sep = (out, (g, None))) /\
  (forall out v, MustCompile pattern sep = (out, Panic v) ->
     exists g e, v = PanicError e /\ Compile pattern sep = (out, (g, Some e))).
Proof.
  unfold MustCompile.
  destruct (facade.Compile_cases pattern sep) as [[g' E]|[e' E]];
    destruct (Compile pattern sep) as [out' [g0 e0]]; simpl in E;
    injection E as -> ->; repeat split; try congruence.
  - intros out v [= <- <-]. eauto.
Qed.

(** C8, the counterexample: compiling the pattern [a] leaves two lines on
    standard output. *)
Lemma Compile_writes_to_stdout :
  fst (Compile (lit "a") []) =
  [ [VString (lit "pattern:"); VString (lit "a")];
    [VString (lit "regexp:");
     VRegex (engine.Cat (engine.Char "a"%char) engine.Empty);
     VCompiler ast.Regexp] ] /\
  fst (Compile (lit "a") []) <> [].
Proof. split; [reflexivity | discriminate]. Qed.

(** C8, as amended.  [Compile] prints two lines, the pattern and the
    generated regexp with its engine tag, once the pattern is parsed and the
    regexp generated, and nothing when either step fails; [MustCompile]
    prints the same; nothing else is written. *)
Theorem Compile_output pattern sep :
  fst (Compile pattern sep) =
    match syntax.Parse pattern with
    | Ok (tree, compilerToUse) =>
        match compiler.Compile tree sep with
        | Ok regex =>
            [ [VString (lit "pattern:"); VString pattern];
              [VString (lit "regexp:"); VRegex regex; VCompiler compilerToUse] ]
        | Err _ => []
        end
    | Err _ => []
    end /\
  fst (MustCompile pattern sep) = fst (Compile pattern sep).
Proof.
  split.
  - unfold Compile.
    destruct (syntax.Parse pattern) as [[tree kind]|e]; [|reflexivity].
    destruct (compiler.Compile tree sep) as [regex|e]; [|reflexivity].
    destruct kind; [destruct (regexp.Compile regex)
                   |destruct (pcre.Compile regex 0)|]; reflexivity.
  - unfold MustCompile. destruct (Compile pattern sep) as [out [g [e|]]]; reflexivity.
Qed.

(** Induction over a tree, with the property at hand for every child. *)
Lemma Node_nested_ind (P : ast.Node -> Prop)
    (Hlit : forall c, P (ast.Literal c))
    (Hone : P ast.AnyOne)
    (Hany : forall b, P (ast.AnySequence b))
    (Hcls : forall ranges negated, P (ast.CharClass ranges negated))
    (Hgrp : forall kind alts, Forall P alts -> P (ast.Group kind alts))
    (Hseq : forall children, Forall P children -> P (ast.Sequence children)) :
  forall t, P t.
Proof.
  fix IH 1. intros [c| |b|ranges negated|kind alts|children].
  - apply Hlit.
  - apply Hone.
  - apply Hany.
  - apply Hcls.
  - apply Hgrp. induction alts as [|a alts IHalts]; constructor; [apply IH | exact IHalts].
  - apply Hseq.
    induction children as [|a l IHl]; constructor; [apply IH | exact IHl].
Qed.

(** A tree is made of literals, wildcards and classes only exactly when no
    group occurs in it. *)
Lemma basic_only_no_group t : basic_only t = negb (ast.has_group t).
Proof.
  induction t as [c| |b|ranges negated|kind alts _|children IH] using Node_nested_ind;
    try reflexivity.
  simpl. induction IH as [|a l Ha _ IHl]; simpl; [reflexivity|].
  rewrite Ha, IHl, negb_orb. reflexivity.
Qed.

(** C3.  A pattern whose tree has a group somewhere is given the PCRE
    engine; one whose tree has literals, wildcards and classes only is given
    the regexp engine. *)
Theorem engine_selection pattern sep tree compilerToUse :
  syntax.Parse pattern = Ok (tree, compilerToUse) ->
  (ast.has_group tree = true ->
     compilerToUse = ast.PCRE /\
     forall out g, Compile pattern sep = (out, (Some g, None)) ->
       engine_of g = Some ast.PCRE /\ r g = None /\ p g <> None) /\
  (basic_only tree = true ->
     compilerToUse = ast.Regexp /\
     forall out g, Compile pattern sep = (out, (Some g, None)) ->
       engine_of g = Some ast.Regexp /\ r g <> None /\ p g = None).
Proof.
  intros HP.
  assert (Hk : compilerToUse = syntax.analyze tree).
  { unfold syntax.Parse in HP.
    destruct (syntax.scan _ _ _ _) as [ts|]; [|discriminate]. simpl in HP.
    destruct (syntax.parse _ _ _ _ _) as [t|]; [|discriminate]. simpl in HP.
    now injection HP as -> ->. }
  assert (Hg : forall out g, Compile pattern sep = (out, (Some g, None)) ->
               (compilerToUse = ast.Regexp /\ r g <> None /\ p g = None) \/
               (compilerToUse = ast.PCRE /\ r g = None /\ p g <> None)).
  { intros out g H. unfold Compile in H. rewrite HP in H.
    destruct (compiler.Compile tree sep) as [regex|]; [|discriminate].
    destruct compilerToUse; try discriminate.
    - destruct (regexp.Compile regex); [|discriminate].
      injection H as _ <-. left. simpl. repeat split; congruence.
    - destruct (pcre.Compile regex 0); [|discriminate].
      injection H as _ <-. right. simpl. repeat split; congruence. }
  unfold syntax.analyze in Hk. split; intros Ht.
  - rewrite Ht in Hk. split; [assumption|]. intros out g H.
    destruct (Hg out g H) as [(E & _)|(_ & Hr & Hp)]; [congruence|].
    unfold engine_of. rewrite Hr. destruct (p g); [auto | congruence].
  - rewrite basic_only_no_group in Ht. apply negb_true_iff in Ht.
    rewrite Ht in Hk. split; [assumption|]. intros out g H.
    destruct (Hg out g H) as [(_ & Hr & Hp)|(E & _)]; [|congruence].
    unfold engine_of. destruct (r g); [auto | congruence].
Qed.

Lemma engine_selection_witness :
  (ast.has_group
     (ast.Sequence [ast.Group ast.OneOf [ast.Sequence [ast.Literal "a"%char];
                                         ast.Sequence [ast.Literal "b"%char]]]) = true ->
     ast.PCRE = ast.PCRE /\
     forall out g, Compile (lit "@(a|b)") [47%Z] = (out, (Some g, None)) ->
       engine_of g = Some ast.PCRE /\ r g = None /\ p g <> None) /\
  (basic_only
     (ast.Sequence [ast.Group ast.OneOf [ast.Sequence [ast.Literal "a"%char];
                                         ast.Sequence [ast.Literal "b"%char]]]) = true ->
     ast.PCRE = ast.Regexp /\
     forall out g, Compile (lit "@(a|b)") [47%Z] = (out, (Some g, None)) ->
       engine_of g = Some ast.Regexp /\ r g <> None /\ p g = None).
Proof.
  apply (@engine_selection (lit "@(a|b)") [47%Z]). reflexivity.
Defined.


(* ================================================================= *)
(** ** Code points written and read back *)

Module utf8_facts.
Import utf8.
Local Open Scope Z_scope.

Lemma b2z_z2b z : 0 <= z < 256 -> b2z (z2b z) = z.
Proof.
  intros H. unfold b2z, z2b. rewrite N_ascii_embedding.
  - apply Z2N.id. lia.
  - apply N2Z.inj_lt. rewrite Z2N.id by lia. simpl. lia.
Qed.

Lemma b2z_range b : 0 <= b2z b < 256.
Proof.
  unfold b2z. pose proof (N_ascii_bounded b) as H.
  apply N2Z.inj_lt in H. simpl in H. lia.
Qed.

Ltac bytes :=
  repeat match goal with
         | |- context [b2z (z2b ?z)] =>
             rewrite (@b2z_z2b z)
               by (try (Z.to_euclidean_division_equations; lia); lia)
         end.

Ltac div_lia := Z.to_euclidean_division_equations; lia.

(** Splits on the comparisons of the goal and drops the impossible sides. *)
Ltac zcases :=
  repeat (match goal with
          | |- context [?a =? ?b] =>
              destruct (Z.eqb_spec a b); try (exfalso; div_lia)
          | |- context [?a <? ?b] =>
              destruct (Z.ltb_spec a b); try (exfalso; div_lia)
          | |- context [?a <=? ?b] =>
              destruct (Z.leb_spec a b); try (exfalso; div_lia)
          end; cbn [orb andb negb]; cbv iota).

(** What [EncodeRune] writes, [DecodeRune] reads back, whatever follows. *)
Theorem DecodeRune_EncodeRune r rest :
  DecodeRune (EncodeRune r ++ rest) = (written r, length (EncodeRune r)).
Proof.
  unfold EncodeRune, written, ValidRune, MaxRune.
  destruct ((0 <=? r) && (r <=? 1114111)
            && negb ((55296 <=? r) && (r <=? 57343)))%bool eqn:V; simpl negb; cbv iota.
  - apply andb_true_iff in V. destruct V as [V S].
    apply andb_true_iff in V. destruct V as [V0 V1].
    apply Z.leb_le in V0, V1. apply negb_true_iff in S.
    assert (HS : r < 55296 \/ 57343 < r).
    { apply andb_false_iff in S. destruct S as [S|S];
        [apply Z.leb_gt in S | apply Z.leb_gt in S]; lia. }
    clear S.
    destruct (r <=? 127) eqn:E1; [|destruct (r <=? 2047) eqn:E2;
                                   [|destruct (r <=? 65535) eqn:E3]];
      rewrite ?Z.leb_le, ?Z.leb_gt in *;
      unfold DecodeRune, cont, second; cbn [app length]; cbv beta iota zeta; bytes.
    all: zcases; try (f_equal; div_lia).
  - unfold DecodeRune, cont, second; cbn [app length]; cbv beta iota zeta; bytes.
    zcases; reflexivity.
Qed.


Lemma EncodeRune_length r : (1 <= length (EncodeRune r) <= 4)%nat.
Proof.
  unfold EncodeRune.
  destruct (negb (ValidRune r)); [simpl; lia|].
  destruct (r <=? 127); [simpl; lia|].
  destruct (r <=? 2047); [simpl; lia|].
  destruct (r <=? 65535); simpl; lia.
Qed.

Lemma EncodeRune_single r : length (EncodeRune r) = 1%nat -> written r <> RuneError.
Proof.
  unfold EncodeRune, written, RuneError.
  destruct (ValidRune r); simpl; [|discriminate].
  destruct (r <=? 127) eqn:E; [intros _; apply Z.leb_le in E; lia|].
  destruct (r <=? 2047); [discriminate|].
  destruct (r <=? 65535); discriminate.
Qed.

Lemma valid_fuel : forall f1 f2 s,
  (length s <= f1)%nat -> (length s <= f2)%nat -> valid f1 s = valid f2 s.
Proof.
  induction f1 as [|f1 IH]; intros f2 s H1 H2.
  - destruct s; [now destruct f2 | simpl in H1; lia].
  - destruct s as [|x s]; [now destruct f2|].
    destruct f2 as [|f2]; [simpl in H2; lia|].
    cbn [valid].
    pose proof (@engine_facts.DecodeRune_width (x :: s)) as Hw.
    destruct (DecodeRune (x :: s)) as [r w]. simpl snd in Hw.
    destruct ((r =? RuneError) && (w =? 1)%nat)%bool; [reflexivity|].
    assert (1 <= w <= length (x :: s))%nat by (apply Hw; discriminate).
    apply IH; rewrite length_skipn; cbn [length] in *; lia.
Qed.

Lemma ValidString_ascii b s : b2z b < 128 -> ValidString (b :: s) = ValidString s.
Proof.
  intros H. unfold ValidString. cbn [length valid].
  unfold DecodeRune. apply Z.ltb_lt in H. rewrite H.
  replace ((b2z b =? RuneError) && (1 =? 1)%nat)%bool with false.
  - reflexivity.
  - symmetry. apply andb_false_iff. left. apply Z.eqb_neq.
    apply Z.ltb_lt in H. unfold RuneError. lia.
Qed.

Lemma ValidString_EncodeRune r s :
  ValidString (EncodeRune r ++ s) = ValidString s.
Proof.
  pose proof (EncodeRune_length r) as Hl.
  pose proof (@EncodeRune_single r) as H1.
  unfold ValidString.
  destruct (EncodeRune r ++ s) as [|x t] eqn:E.
  - destruct (EncodeRune r); [simpl in Hl; lia | discriminate].
  - cbn [length valid]. rewrite <- E, DecodeRune_EncodeRune.
    replace ((written r =? RuneError) && (length (EncodeRune r) =? 1)%nat)%bool
      with false.
    + rewrite engine_facts.skipn_length_app.
      apply valid_fuel; [|lia].
      apply (f_equal (@length _)) in E. rewrite length_app in E.
      cbn [length] in E. lia.
    + symmetry. apply andb_false_iff.
      destruct (Nat.eqb_spec (length (EncodeRune r)) 1); [|now right].
      left. apply Z.eqb_neq. auto.
Qed.

Lemma ValidString_separators sep s :
  ValidString (concat (map EncodeRune sep) ++ s) = ValidString s.
Proof.
  induction sep as [|r sep IH]; [reflexivity|].
  simpl. rewrite <- app_assoc, ValidString_EncodeRune. exact IH.
Qed.

End utf8_facts.

(* ================================================================= *)
(** ** The wildcards *)

Module wildcard.
Import engine.

(** A repetition at the head of the pattern matches at the very start of
    every subject, if only the empty word. *)
Lemma star_loop_found body (k : cont) :
  (forall i s c, is_some (k i s c) = true) ->
  forall fuel i s c, is_some (star_loop body fuel i s c k) = true.
Proof.
  intros Hk [|fuel] i s c; simpl; [apply Hk|].
  rewrite engine_facts.is_some_orelse, Hk. apply orb_true_r.
Qed.

Lemma execute_star m q s : is_some (execute m (Cat (Star q) Empty) s) = true.
Proof.
  unfold execute. destruct (length s); cbn [search];
    rewrite engine_facts.is_some_orelse; apply orb_true_iff; left;
    cbn [run]; now apply star_loop_found.
Qed.

(** What the two wildcard patterns compile to. *)
Lemma Compile_super sep :
  snd (Compile (lit "**") sep) =
  (Some {| r := Some {| regexp.prog := Cat (Star AnyChar) Empty |}; p := None |}, None).
Proof. reflexivity. Qed.

Lemma Compile_any sep :
  snd (Compile (lit "*") sep) =
  (Some {| r := Some {| regexp.prog := Cat (Star (NoneOf sep)) Empty |}; p := None |},
   None).
Proof.
  assert (W : well_formed UTF8 (Cat (Star (NoneOf sep)) Empty) = true).
  { unfold well_formed. apply andb_true_iff. split; [|reflexivity].
    cbn [text]. rewrite app_nil_r.
    change (lit "[^") with ["["%char; "^"%char]. cbn [app].
    rewrite !utf8_facts.ValidString_ascii by (vm_compute; reflexivity).
    rewrite <- app_assoc, utf8_facts.ValidString_separators. reflexivity. }
  unfold Compile.
  change (syntax.Parse (lit "*"))
    with (Ok (ast.Sequence [ast.AnySequence false], ast.Regexp)).
  cbv iota beta.
  change (compiler.Compile (ast.Sequence [ast.AnySequence false]) sep)
    with (Ok (Cat (Star (NoneOf sep)) Empty)).
  cbv iota beta. unfold regexp.Compile. rewrite W. reflexivity.
Qed.

End wildcard.



(* ================================================================= *)
(** ** Captures *)

(** C5.  For the pattern [@(foo|bar)baz] and the input [foobaz], [Capture]
    returns the whole match and then the text of the group; with groups
    inside and after one another, the outer group comes before the ones in
    it and a group to the left before one to the right. *)
Theorem Capture_order sep :
  Capture (fst (snd (Compile (lit "@(foo|bar)baz") sep))) (lit "foobaz")
    = Return [lit "foobaz"; lit "foo"] /\
  Capture (fst (snd (Compile (lit "@(@(a|b)c)@(d)") sep))) (lit "bcd")
    = Return [lit "bcd"; lit "bc"; lit "b"; lit "d"].
Proof. split; reflexivity. Qed.

(* ================================================================= *)
(** ** Quoting *)

Module quoting.
Import engine.

Lemma store_spec v : forall b j, j < length b ->
  exists b', store b j v = Some b' /\ length b' = length b /\
             firstn (S j) b' = firstn j b ++ [v].
Proof.
  induction b as [|x b IH]; intros j Hj; simpl in Hj; [lia|].
  destruct j as [|j].
  - exists (v :: b). repeat split.
  - destruct (IH j) as (b' & E & Hl & Hf); [lia|].
    exists (x :: b'). simpl store. rewrite E. repeat split.
    + simpl. now rewrite Hl.
    + change (firstn (S (S j)) (x :: b')) with (x :: firstn (S j) b').
      now rewrite Hf.
Qed.

(** The loop never writes past the buffer, and leaves the quoted text in
    front of index [j]. *)
Lemma quote_loop_spec : forall s b j, j + 2 * length s <= length b ->
  exists b' j', quote_loop s b j = Some (b', j') /\
                firstn j' b' = firstn j b ++ quoted s.
Proof.
  induction s as [|c s IH]; intros b j Hlen.
  - exists b, j. simpl. now rewrite app_nil_r.
  - simpl in Hlen. simpl quote_loop. simpl quoted.
    destruct (syntax.Special c).
    + destruct (@store_spec "\"%char b j) as (b1 & E1 & Hl1 & Hf1); [lia|].
      rewrite E1.
      destruct (@store_spec c b1 (S j)) as (b2 & E2 & Hl2 & Hf2); [lia|].
      rewrite E2.
      destruct (IH b2 (S (S j))) as (b' & j' & E & Hf); [lia|].
      exists b', j'. split; [assumption|].
      rewrite Hf, Hf2, Hf1, <- !app_assoc. reflexivity.
    + destruct (@store_spec c b j) as (b2 & E2 & Hl2 & Hf2); [lia|].
      rewrite E2.
      destruct (IH b2 (S j)) as (b' & j' & E & Hf); [lia|].
      exists b', j'. split; [assumption|].
      rewrite Hf, Hf2, <- app_assoc. reflexivity.
Qed.

Theorem QuoteMeta_quoted s : QuoteMeta s = Return (quoted s).
Proof.
  unfold QuoteMeta.
  destruct (@quote_loop_spec s (repeat zero (2 * length s)) 0) as (b & j & E & Hf).
  - rewrite repeat_length. lia.
  - rewrite E, Hf. reflexivity.
Qed.


(** A byte that is not special is scanned as itself. *)
Lemma scan_literal c rest off :
  syntax.Special c = false ->
  syntax.scan syntax.Outside 0 off (c :: rest) =
  (ts <- syntax.scan syntax.Outside 0 (off + 1) rest ;; Ok (syntax.TLiteral c :: ts)).
Proof.
  unfold syntax.Special, syntax.chr. intros H.
  repeat (apply orb_false_iff in H; destruct H as [H ?]).
  destruct rest as [|d rest]; simpl;
    repeat match goal with E : Ascii.eqb c _ = false |- _ => rewrite E; clear E end;
    rewrite ?andb_false_r; reflexivity.
Qed.

(** A quoted byte is scanned as an escaped literal. *)
Lemma scan_escaped c rest off :
  syntax.scan syntax.Outside 0 off ("\"%char :: c :: rest) =
  (ts <- syntax.scan syntax.Outside 0 (off + 2) rest ;;
   Ok (syntax.TEscapedLiteral c :: ts)).
Proof. reflexivity. Qed.

Lemma scan_quoted : forall s off,
  syntax.scan syntax.Outside 0 off (quoted s) =
  Ok (map token_of s ++ [syntax.TEndOfInput]).
Proof.
  induction s as [|c s IH]; intros off; [reflexivity|].
  simpl quoted. unfold token_of at 1. simpl map.
  destruct (syntax.Special c) eqn:E.
  - rewrite scan_escaped, IH. reflexivity.
  - rewrite scan_literal, IH by assumption. reflexivity.
Qed.

Lemma parse_literals : forall s root idx,
  syntax.parse [] root None idx (map token_of s ++ [syntax.TEndOfInput]) =
  Ok (ast.Sequence (rev root ++ map ast.Literal s)).
Proof.
  induction s as [|c s IH]; intros root idx.
  - simpl. now rewrite app_nil_r.
  - simpl map. unfold token_of at 1.
    destruct (syntax.Special c); simpl; rewrite IH; simpl;
      now rewrite <- app_assoc.
Qed.

Lemma no_group_in_literals s : existsb ast.has_group (map ast.Literal s) = false.
Proof. induction s; simpl; auto. Qed.

Theorem Parse_quoted s :
  syntax.Parse (quoted s) = Ok (ast.Sequence (map ast.Literal s), ast.Regexp).
Proof.
  unfold syntax.Parse. rewrite scan_quoted. simpl bind.
  rewrite parse_literals. simpl. unfold syntax.analyze. simpl.
  now rewrite no_group_in_literals.
Qed.

Lemma compile_literals sep s :
  compiler.compile sep (ast.Sequence (map ast.Literal s)) = Ok (word s).
Proof.
  simpl. induction s as [|c s IH]; simpl; [reflexivity|]. now rewrite IH.
Qed.

Lemma text_word s : text (word s) = s.
Proof. induction s as [|c s IH]; simpl; [reflexivity | now rewrite IH]. Qed.

Lemma ranges_ok_word m s : ranges_ok m (word s) = true.
Proof. induction s; simpl; auto. Qed.

(** The quoted pattern goes to the regexp engine as the bytes of [s]: it
    compiles when [s] is valid UTF-8, to the program that spells out [s],
    and is rejected by the engine otherwise. *)
Theorem Compile_quoted s sep :
  snd (Compile (quoted s) sep) =
  if utf8.ValidString s
  then (Some {| r := Some {| regexp.prog := word s |}; p := None |}, None)
  else (None, Some EngineError).
Proof.
  unfold Compile. rewrite Parse_quoted. unfold compiler.Compile.
  rewrite compile_literals. cbv iota beta.
  unfold regexp.Compile, well_formed. rewrite text_word, ranges_ok_word, andb_true_r.
  destruct (utf8.ValidString s); reflexivity.
Qed.

(** The program that spells out [s] takes [s] from the head of a subject. *)
Lemma run_word m : forall s n i rest c k,
  run m (word s) n i (s ++ rest) c k = k (i + length s) rest c.
Proof.
  induction s as [|x s IH]; intros n i rest c k; simpl.
  - now rewrite Nat.add_0_r.
  - rewrite Ascii.eqb_refl. simpl. rewrite IH. f_equal. lia.
Qed.

Lemma execute_word m s post : is_some (execute m (word s) (s ++ post)) = true.
Proof.
  unfold execute. destruct (length (s ++ post)); cbn [search];
    rewrite engine_facts.is_some_orelse, run_word; reflexivity.
Qed.

End quoting.



(** The example of the comment on [QuoteMeta]. *)
Example QuoteMeta_example : QuoteMeta (lit "*(foo*)") = Return (lit "\*\(foo\*\)").
Proof. reflexivity. Qed.

(* ================================================================= *)
(** ** Properties that section 8 lists for testing *)

Module examples.

Example alternation :
  run_match "@(foo|bar)" [] "foo" = Return true /\
  run_match "@(foo|bar)" [] "bar" = Return true /\
  run_match "@(foo|bar)" [] "baz" = Return false.
Proof. repeat split. Qed.

Example quantified_groups :
  run_match "*(ab)" [] "" = Return true /\
  run_match "*(ab)" [] "abab" = Return true /\
  run_match "+(ab)" [] "" = Return false /\
  run_match "+(ab)" [] "ab" = Return true.
Proof. repeat split. Qed.

Example character_class :
  run_match "[a-c]" [] "b" = Return true /\
  run_match "[!a-c]" [] "b" = Return false /\
  run_match "[a-c]" [] "d" = Return false /\
  snd (Compile (lit "[]") []) = (None, Some (LexError 1)).
Proof. repeat split. Qed.

Example boundaries :
  snd (Compile (lit "@(foo") []) = (None, Some (LexError 5)) /\
  snd (Compile (lit "foo\") []) = (None, Some (LexError 3)).
Proof. repeat split. Qed.

End examples.

(* ================================================================= *)
(** ** More on [QuoteMeta] *)

Module quote_facts.

Lemma quoted_length s :
  length (quoted s) = length s + length (filter syntax.Special s).
Proof.
  induction s as [|c s IH]; simpl; [reflexivity|].
  destruct (syntax.Special c); simpl; rewrite IH; lia.
Qed.

Lemma quoted_app s t : quoted (s ++ t) = quoted s ++ quoted t.
Proof.
  induction s as [|c s IH]; simpl; [reflexivity|].
  destruct (syntax.Special c); simpl; now rewrite IH.
Qed.

Lemma filter_nil_existsb {A} (f : A -> bool) l :
  filter f l = [] <-> existsb f l = false.
Proof.
  induction l as [|x l IH]; simpl; [tauto|].
  destruct (f x); simpl; [split; discriminate | exact IH].
Qed.

Lemma quoted_plain s : existsb syntax.Special s = false -> quoted s = s.
Proof.
  induction s as [|c s IH]; simpl; [reflexivity|].
  destruct (syntax.Special c); simpl; [discriminate|].
  intros H. now rewrite IH.
Qed.

Lemma unquote_quoted s :
  syntax.Special "\"%char = true -> unquote (quoted s) = s.
Proof.
  intros Hb. induction s as [|c s IH]; simpl; [reflexivity|].
  destruct (syntax.Special c) eqn:E; simpl.
  - now rewrite IH.
  - destruct (Ascii.eqb_spec c "\"%char) as [->|_]; [congruence|].
    now rewrite IH.
Qed.

End quote_facts.

(** X1.  [QuoteMeta] never writes outside its buffer of [2 * len(s)] bytes:
    it returns a text with one byte more than [s] for every special byte of
    [s], so between [len(s)] and [2 * len(s)] bytes. *)
Theorem QuoteMeta_length s :
  exists q, QuoteMeta s = Return q /\
            length q = length s + length (filter syntax.Special s) /\
            length s <= length q <= 2 * length s.
Proof.
  exists (quoted s). split; [apply quoting.QuoteMeta_quoted|].
  rewrite quote_facts.quoted_length.
  pose proof (filter_length_le syntax.Special s). lia.
Qed.

(** X2.  [QuoteMeta] works byte by byte: quoting a concatenation is
    concatenating the quoted parts. *)
Theorem QuoteMeta_app s t :
  exists qs qt, QuoteMeta s = Return qs /\ QuoteMeta t = Return qt /\
                QuoteMeta (s ++ t) = Return (qs ++ qt).
Proof.
  exists (quoted s), (quoted t).
  rewrite !quoting.QuoteMeta_quoted, quote_facts.quoted_app. auto.
Qed.

(** X3.  [QuoteMeta] returns its argument unchanged exactly when the
    argument has no special byte. *)
Theorem QuoteMeta_identity s :
  QuoteMeta s = Return s <-> existsb syntax.Special s = false.
Proof.
  rewrite quoting.QuoteMeta_quoted. split.
  - intros [= E]. apply quote_facts.filter_nil_existsb.
    apply (f_equal (@length _)) in E. rewrite quote_facts.quoted_length in E.
    apply length_zero_iff_nil. lia.
  - intros H. now rewrite quote_facts.quoted_plain.
Qed.

(** X4.  When the backslash is itself a special byte, the quoted text can
    be read back: dropping each quoting backslash of [QuoteMeta s] gives
    [s], so no two texts are quoted alike. *)
Theorem QuoteMeta_unquote s :
  syntax.Special "\"%char = true ->
  exists q, QuoteMeta s = Return q /\ unquote q = s /\
            forall t, QuoteMeta t = Return q -> t = s.
Proof.
  intros Hb. exists (quoted s). split; [apply quoting.QuoteMeta_quoted|].
  split; [now apply quote_facts.unquote_quoted|].
  intros t. rewrite quoting.QuoteMeta_quoted. intros [= E].
  rewrite <- (quote_facts.unquote_quoted t Hb), E.
  now apply quote_facts.unquote_quoted.
Qed.

Lemma QuoteMeta_unquote_witness :
  exists q, QuoteMeta (lit "a\*(b)") = Return q /\ unquote q = lit "a\*(b)" /\
            forall t, QuoteMeta t = Return q -> t = lit "a\*(b)".
Proof. apply (@QuoteMeta_unquote (lit "a\*(b)")). reflexivity. Defined.

(* ================================================================= *)
(** ** More on the facade *)

(** X5.  Whatever [Glob] is at hand, [Capture] returns no string when
    [Match] is false and, when it is true, one string for the whole match
    and one for each group of the pattern: the loop runs from [0] to
    [Groups()] inclusive. *)
Theorem Capture_length g prog s :
  program g = Some prog ->
  exists b l,
    Match (Some g) s = Return b /\ Capture (Some g) s = Return l /\
    length l = if b then S (engine.groups prog) else 0.
Proof.
  intros Hp.
  rewrite (facade.Match_execute g s Hp), (facade.Capture_execute g s Hp).
  do 2 eexists. split; [reflexivity|]. split; [reflexivity|].
  destruct (engine.execute _ prog s); simpl; [|reflexivity].
  now rewrite length_map, length_seq.
Qed.

Lemma Capture_length_witness :
  exists b l,
    Match (fst (snd (Compile (lit "@(a|b)@(c)") []))) (lit "bc") = Return b /\
    Capture (fst (snd (Compile (lit "@(a|b)@(c)") []))) (lit "bc") = Return l /\
    length l = if b then 3 else 0.
Proof.
  pose (P := engine.Cat
                (engine.Cap (engine.Alt
                               (engine.Cat (engine.Char "a"%char) engine.Empty)
                               (engine.Cat (engine.Char "b"%char) engine.Empty)))
                (engine.Cat
                   (engine.Cap (engine.Cat (engine.Char "c"%char) engine.Empty))
                   engine.Empty)).
  exact (@Capture_length {| r := None; p := Some {| pcre.prog := P |} |} P
                         (lit "bc") eq_refl).
Defined.

(** X6.  [Match] and [Capture] panic on the same receivers, always with a
    nil dereference: a nil [*Glob], and a [Glob] whose two handles are both
    nil (the zero value, which [Compile] never returns).  When [r] is set,
    [p] is not looked at. *)
Theorem Match_Capture_panic g s :
  (forall v, Match g s = Panic v <-> Capture g s = Panic v) /\
  (forall v, Match g s = Panic v ->
     v = NilDereference /\
     (g = None \/ exists g', g = Some g' /\ r g' = None /\ p g' = None)) /\
  (g = None \/ (exists g', g = Some g' /\ r g' = None /\ p g' = None) ->
     Match g s = Panic NilDereference) /\
  (forall re p1 p2,
     Match (Some {| r := Some re; p := p1 |}) s
       = Match (Some {| r := Some re; p := p2 |}) s /\
     Capture (Some {| r := Some re; p := p1 |}) s
       = Capture (Some {| r := Some re; p := p2 |}) s).
Proof.
  assert (Hcases :
            (exists b l, Match g s = Return b /\ Capture g s = Return l /\
                         exists g', g = Some g' /\ program g' <> None) \/
            (Match g s = Panic NilDereference /\ Capture g s = Panic NilDereference /\
             (g = None \/ exists g', g = Some g' /\ r g' = None /\ p g' = None))).
  { destruct g as [g'|]; [|right; auto].
    destruct (program g') as [prog|] eqn:Hp.
    - left. rewrite (facade.Match_execute g' s Hp), (facade.Capture_execute g' s Hp).
      do 2 eexists. repeat split. exists g'. split; [reflexivity | congruence].
    - right. unfold program in Hp. unfold Match, Capture.
      destruct (r g') eqn:Er; [discriminate|].
      destruct (p g') eqn:Ep; [discriminate|].
      repeat split. right. exists g'. auto. }
  split; [|split; [|split]].
  - intros v. destruct Hcases as [(b & l & -> & -> & _)|(-> & -> & _)];
      [split; discriminate | split; intros [= <-]; reflexivity].
  - intros v Hv. destruct Hcases as [(b & l & E & _)|(E & _ & Hg)].
    + rewrite E in Hv. discriminate.
    + rewrite E in Hv. injection Hv as <-. auto.
  - intros Hg. destruct Hcases as [(b & l & _ & _ & g' & -> & Hp)|(E & _)];
      [|assumption].
    exfalso. apply Hp. unfold program.
    destruct Hg as [Hg|(g'' & [= <-] & -> & ->)]; [discriminate | reflexivity].
  - intros re p1 p2. split; reflexivity.
Qed.

(** X7.  [Compile] returns either a [Glob] and no error, or an error and no
    [Glob]; a [Glob] it returns holds exactly one engine handle. *)
Theorem Compile_result_shape pattern sep :
  (exists g, snd (Compile pattern sep) = (Some g, None) /\
             ((r g <> None /\ p g = None) \/ (r g = None /\ p g <> None))) \/
  (exists e, snd (Compile pattern sep) = (None, Some e)).
Proof.
  unfold Compile.
  destruct (syntax.Parse pattern) as [[tree kind]|e]; [|right; now exists e].
  destruct (compiler.Compile tree sep) as [regex|e]; [|right; now exists e].
  destruct kind.
  - destruct (regexp.Compile regex) as [re|e]; [left|right]; eexists;
      [split; [reflexivity|] | reflexivity].
    left. simpl. split; congruence.
  - destruct (pcre.Compile regex 0) as [re|e]; [left|right]; eexists;
      [split; [reflexivity|] | reflexivity].
    right. simpl. split; congruence.
  - right. eexists; reflexivity.
Qed.

(** X8.  The engine is chosen from the pattern alone: compiled with two
    lists of separators, a pattern is bound to the same engine. *)
Theorem engine_independent_of_separators pattern sep1 sep2 out1 out2 g1 g2 :
  Compile pattern sep1 = (out1, (Some g1, None)) ->
  Compile pattern sep2 = (out2, (Some g2, None)) ->
  engine_of g1 = engine_of g2.
Proof.
  intros H1 H2.
  destruct (facade.Compile_ok _ _ H1) as (t1 & k1 & _ & P1 & _ & _ & E1 & _).
  destruct (facade.Compile_ok _ _ H2) as (t2 & k2 & _ & P2 & _ & _ & E2 & _).
  rewrite E1, E2. congruence.
Qed.

Lemma engine_independent_of_separators_witness :
  engine_of {| r := Some {| regexp.prog :=
                 engine.Cat (engine.Star (compiler.exclude [])) engine.Empty |};
               p := None |}
  = engine_of {| r := Some {| regexp.prog :=
                 engine.Cat (engine.Star (compiler.exclude [47%Z])) engine.Empty |};
               p := None |}.
Proof.
  apply (@engine_independent_of_separators (lit "*") [] [47%Z]
           (fst (Compile (lit "*") [])) (fst (Compile (lit "*") [47%Z])));
    reflexivity.
Defined.

(** X9.  A [Glob] that [MustCompile] returns is ready for use: [Match] and
    [Capture] return a result on it for every input. *)
Theorem MustCompile_then_use pattern sep out g s :
  MustCompile pattern sep = (out, Return g) ->
  (exists b, Match g s = Return b) /\ (exists l, Capture g s = Return l).
Proof.
  unfold MustCompile. intros H.
  destruct (Compile pattern sep) as [out' [g' [e|]]] eqn:E; [discriminate|].
  injection H as -> ->.
  destruct (facade.Compile_cases pattern sep) as [[g0 E0]|[e E0]];
    rewrite E in E0; simpl in E0; [|discriminate].
  injection E0 as ->.
  destruct (facade.Compile_ok _ _ E) as (_ & _ & body & _ & _ & Hp & _).
  rewrite (facade.Match_execute g0 s Hp), (facade.Capture_execute g0 s Hp).
  split; eexists; reflexivity.
Qed.

Lemma MustCompile_then_use_witness :
  (exists b, Match (fst (snd (Compile (lit "?(a)b") []))) (lit "b") = Return b) /\
  (exists l, Capture (fst (snd (Compile (lit "?(a)b") []))) (lit "b") = Return l).
Proof.
  apply (@MustCompile_then_use (lit "?(a)b") [] (fst (Compile (lit "?(a)b") []))).
  reflexivity.
Defined.
